(** * Plum: a dictionary of words stored in a trie (plum.py)

    The Python program keeps a dictionary of words in a trie whose nodes are
    objects of class [_Trie]; class [Words] validates its input, bounds it
    with the markers [_FIRST] and [_LAST] and delegates to the root node.

    Embedding.  A [_Trie] instance is a mutable object that other instances
    refer to, so the instances live in a [store] (a list of objects, a
    reference being an index) and [_Trie.add_word] passes the store along.
    The attribute [_entry] is a Python [dict]; it is never handed out of its
    node, so it is kept inside the node, as an association list in insertion
    order, which is the iteration order of a [dict] (Python 3.7 and later).
    Python strings are [string], one [ascii] per character: the characters
    that the program tells apart (letters, the dot, the markers, the
    newline) are ASCII.  The methods that raise return a [result].  The
    interpreter's bound on the depth of the call stack is not part of the
    model. *)

From Stdlib Require Import Ascii String.
From stdpp Require Import base list strings.

Open Scope char_scope.
Open Scope stdpp_scope.

(** ** Exceptions and results *)

(** The two messages of [WordsError]. *)
Inductive message : Set :=
  | BadInputLetters       (* "input must only contain lowercase letters a-z" *)
  | BadInputLettersAndDot (* "input must only contain lowercase letters a-z and dots '.'" *).

(** What a call can raise.  [InvalidRef] (a reference that is not in the
    store) and [OutOfFuel] (see [_Trie._get_all_suffixes]) belong to the
    model only. *)
Inductive exn : Set :=
  | WordsError (m : message)
  | AssertionError
  | IndexError
  | KeyError
  | InvalidRef
  | OutOfFuel.

Inductive result (A : Type) : Type :=
  | Ok (a : A)
  | Raise (e : exn).

Arguments Ok {A} a.
Arguments Raise {A} e.

(** [x ← m; k]: go on with the value of [m], or raise what [m] raised. *)
#[global] Instance result_bind : MBind result := λ A B f m,
  match m with
  | Ok a => f a
  | Raise e => Raise e
  end.

(** ** Markers *)

(* Must not be lowercase letters or dot '.'. *)
Definition _FIRST : ascii := "^".
Definition _LAST : ascii := "$".

(** ** Python's [dict], keyed by letters, holding references *)

Abbreviation ref := nat (only parsing).

Abbreviation dict := (list (ascii * ref)) (only parsing).

(** [k in d] *)
Fixpoint dict_contains (d : dict) (k : ascii) : bool :=
  match d with
  | [] => false
  | (k', _) :: d' => if decide (k' = k) then true else dict_contains d' k
  end.

(** [d[k]]; [KeyError] when the key is absent. *)
Fixpoint dict_getitem (d : dict) (k : ascii) : result ref :=
  match d with
  | [] => Raise KeyError
  | (k', v) :: d' => if decide (k' = k) then Ok v else dict_getitem d' k
  end.

(** [d[k] = v]: a present key keeps its place, a new key goes last. *)
Fixpoint dict_setitem (d : dict) (k : ascii) (v : ref) : dict :=
  match d with
  | [] => [(k, v)]
  | (k', v') :: d' =>
      if decide (k' = k) then (k, v) :: d' else (k', v') :: dict_setitem d' k v
  end.

(** [for c in d]: the keys, in insertion order. *)
Definition dict_keys (d : dict) : list ascii := d.*1.

(** ** The store of [_Trie] instances *)

Record object : Set := Object { _letter : ascii; _entry : dict }.

Abbreviation store := (list object) (only parsing).

(** [any(f(c) for c in keys)]: stops at the first true value; an exception
    raised on the way comes out. *)
Fixpoint any (f : ascii → result bool) (keys : list ascii) : result bool :=
  match keys with
  | [] => Ok false
  | c :: keys' =>
      match f c with
      | Ok true => Ok true
      | Ok false => any f keys'
      | Raise e => Raise e
      end
  end.

(** The loop [for c in keys: all_suffixes.append/extend(...)], where [f c]
    is what the body adds for [c]. *)
Fixpoint for_extend (f : ascii → result (list string)) (keys : list ascii)
    (all_suffixes : list string) : result (list string) :=
  match keys with
  | [] => Ok all_suffixes
  | c :: keys' =>
      match f c with
      | Ok l => for_extend f keys' (all_suffixes ++ l)
      | Raise e => Raise e
      end
  end.

Module _Trie.

(** [_Trie(letter)]: a new instance with no entry.  [letter] has length 1
    by its type, which is the assertion of the constructor. *)
Definition __init__ (letter : ascii) (h : store) : ref * store :=
  (length h, h ++ [Object letter []]).

(** [self._entry[k]] *)
Definition entry_getitem (h : store) (self : ref) (k : ascii) : result ref :=
  match h !! self with
  | None => Raise InvalidRef
  | Some o => dict_getitem (_entry o) k
  end.

(** [self._entry[k] = v] *)
Definition entry_setitem (h : store) (self : ref) (k : ascii) (v : ref) : store :=
  match h !! self with
  | None => h
  | Some o => <[self := Object (_letter o) (dict_setitem (_entry o) k v)]> h
  end.

Fixpoint add_word (word : string) (self : ref) (h : store) : result unit * store :=
  match word with
  | "" => (Raise IndexError, h)                                  (* word[0] *)
  | String word0 right_word =>
      match h !! self with
      | None => (Raise InvalidRef, h)
      | Some o =>
          if decide (word0 = _letter o) then
            match right_word with
            | "" => (Ok (), h)                                   (* len(word) == 1 *)
            | String left_letter _ =>
                let h1 :=
                  if dict_contains (_entry o) left_letter then h
                  else
                    let '(new, h') := __init__ left_letter h in
                    entry_setitem h' self left_letter new in
                match entry_getitem h1 self left_letter with
                | Ok child => add_word right_word child h1
                | Raise e => (Raise e, h1)
                end
            end
          else (Raise AssertionError, h)
      end
  end.

Fixpoint contains (word : string) (self : ref) (h : store) : result bool :=
  match word with
  | "" => Raise IndexError                                       (* word[1] *)
  | String word0 right_word =>
      match h !! self with
      | None => Raise InvalidRef
      | Some o =>
          match right_word with
          | "" => Ok (bool_decide (word0 = _letter o))           (* len(word) == 1 *)
          | String left_letter _ =>
              if decide (left_letter ≠ "."%char) then
                if negb (dict_contains (_entry o) left_letter) then Ok false
                else
                  child ← dict_getitem (_entry o) left_letter;
                  contains right_word child h
              else
                any (λ c, child ← dict_getitem (_entry o) c;
                          contains right_word child h)
                    (dict_keys (_entry o))
          end
      end
  end.

(** The recursion of [_get_all_suffixes] follows the references of the
    store, so it is bounded by [fuel]; [Words.search] gives it the size of
    the store, which is always enough (lemma [get_all_suffixes_fuel]). *)
Fixpoint _get_all_suffixes (fuel : nat) (self : ref) (h : store) : result (list string) :=
  match fuel with
  | 0 => Raise OutOfFuel
  | S fuel' =>
      match h !! self with
      | None => Raise InvalidRef
      | Some o =>
          for_extend
            (λ c, if decide (c = _LAST) then Ok [""]
                  else
                    child ← dict_getitem (_entry o) c;
                    l ← _get_all_suffixes fuel' child h;
                    Ok (map (String c) l))
            (dict_keys (_entry o)) []
      end
  end.

Fixpoint search (word prefix : string) (self : ref) (h : store) (fuel : nat)
    : result (list string) :=
  match word with
  | "" => Raise AssertionError                                   (* len(word) >= 1 *)
  | String _ right_word =>
      match right_word with
      | "" => Raise IndexError                                   (* word[1] *)
      | String left_letter _ =>
          match h !! self with
          | None => Raise InvalidRef
          | Some o =>
              if decide (left_letter ≠ _LAST) then
                if negb (dict_contains (_entry o) left_letter) then Ok []
                else
                  child ← dict_getitem (_entry o) left_letter;
                  search right_word prefix child h fuel
              else
                l ← _get_all_suffixes fuel self h;
                Ok (map (λ s, prefix +:+ s) l)
          end
      end
  end.

End _Trie.

(** ** Validation *)

(** The character class [[a-z]]. *)
Definition lowercase (c : ascii) : bool :=
  ("a" <=? c)%char && (c <=? "z")%char.

(** The character class [[a-z\.]]. *)
Definition lowercase_or_dot (c : ascii) : bool :=
  lowercase c || bool_decide (c = "."%char).

(** [re.match("^[class]*$", s)] finds a match.  The star takes the longest
    run of characters of the class (none of them is a newline), and Python's
    [$] then matches at the end of the string and also just before a
    newline that is the last character of the string. *)
Fixpoint re_match (class : ascii → bool) (s : string) : bool :=
  match s with
  | "" => true
  | String c s' =>
      if class c then re_match class s'
      else bool_decide (c = "010"%char ∧ s' = "")
  end.

Module Words.

Definition _LETTERS_PATTERN : ascii → bool := lowercase.
Definition _LETTERS_AND_DOT_PATTERN : ascii → bool := lowercase_or_dot.

(** An instance of [Words] together with the store of the nodes it owns. *)
Record t : Set := Build { heap : store; _trie : ref }.

Definition __init__ : t :=
  let '(root, h) := _Trie.__init__ _FIRST [] in Build h root.

Definition _pad_word (word : string) : string :=
  String _FIRST (word +:+ String _LAST "").

Definition add_word (word : string) (self : t) : result unit * t :=
  if negb (re_match _LETTERS_PATTERN word) then
    (Raise (WordsError BadInputLetters), self)
  else
    let '(r, h) := _Trie.add_word (_pad_word word) (_trie self) (heap self) in
    (r, Build h (_trie self)).

(** [contains] and [search] assign to no attribute: the store they are given
    is the store they leave. *)
Definition contains (word : string) (self : t) : result bool * t :=
  if negb (re_match _LETTERS_AND_DOT_PATTERN word) then
    (Raise (WordsError BadInputLettersAndDot), self)
  else
    (_Trie.contains (_pad_word word) (_trie self) (heap self), self).

Definition search (word : string) (self : t) : result (list string) * t :=
  if negb (re_match _LETTERS_PATTERN word) then
    (Raise (WordsError BadInputLetters), self)
  else
    (_Trie.search (_pad_word word) word (_trie self) (heap self)
       (length (heap self)), self).

End Words.

(** ** Programs: sequences of calls of the public methods *)

Inductive call : Set :=
  | AddWord (word : string)
  | Contains (word : string)
  | Search (word : string).

(** The dictionary after a call, whether it returned or raised. *)
Definition step (c : call) (self : Words.t) : Words.t :=
  match c with
  | AddWord word => (Words.add_word word self).2
  | Contains word => (Words.contains word self).2
  | Search word => (Words.search word self).2
  end.

Fixpoint run (cs : list call) (self : Words.t) : Words.t :=
  match cs with
  | [] => self
  | c :: cs' => run cs' (step c self)
  end.

(** The words of the calls of [add_word] that returned, in order. *)
Fixpoint inserted (cs : list call) (self : Words.t) : list string :=
  match cs with
  | [] => []
  | c :: cs' =>
      match c with
      | AddWord word =>
          match (Words.add_word word self).1 with
          | Ok _ => [word]
          | Raise _ => []
          end
      | _ => []
      end ++ inserted cs' (step c self)
  end.

(** The dictionary a program leaves, starting from [Words()]. *)
Definition after (cs : list call) : Words.t := run cs Words.__init__.

(** The words a program has inserted. *)
Definition words_of (cs : list call) : list string := inserted cs Words.__init__.

(** ** Notions of the specification *)

(** [p] is a pattern for [w]: same length, and at each position the
    character of [p] is a dot or the character of [w]. *)
Fixpoint dot_match (p w : string) : bool :=
  match p, w with
  | "", "" => true
  | String a p', String b w' =>
      (bool_decide (a = "."%char) || bool_decide (a = b)) && dot_match p' w'
  | _, _ => false
  end.

(** ** Paths in the store *)

(** [b] is the entry of [a] under [c]. *)
Definition edge (h : store) (a : ref) (c : ascii) (b : ref) : Prop :=
  ∃ o, h !! a = Some o ∧ (c, b) ∈ _entry o.

(** The node that the letters of [u] lead to from [a]. *)
Fixpoint walk (h : store) (a : ref) (u : string) : option ref :=
  match u with
  | "" => Some a
  | String c u' =>
      match _Trie.entry_getitem h a c with
      | Ok b => walk h b u'
      | Raise _ => None
      end
  end.

(** The structural invariant of the trie: the root carries [_FIRST]; keys
    are unique; the node under a key carries that key as its letter; and
    the nodes form a tree: references go forward in the store (no cycle), a
    node is the entry of at most one node under one key (no sharing), and
    every node but the root is such an entry. *)
Record trie_inv (self : Words.t) : Prop := TrieInv {
  inv_root : ∃ o, Words.heap self !! Words._trie self = Some o ∧ _letter o = _FIRST;
  inv_keys : ∀ a o, Words.heap self !! a = Some o → NoDup (dict_keys (_entry o));
  inv_letter : ∀ a c b, edge (Words.heap self) a c b →
      ∃ o, Words.heap self !! b = Some o ∧ _letter o = c;
  inv_forward : ∀ a c b, edge (Words.heap self) a c b → a < b;
  inv_parent : ∀ a a' c c' b, edge (Words.heap self) a c b →
      edge (Words.heap self) a' c' b → a = a' ∧ c = c';
  inv_owned : ∀ b, b < length (Words.heap self) → b ≠ Words._trie self →
      ∃ a c, edge (Words.heap self) a c b
}.

(** The store after the two lines of [add_word] that make sure that
    [self._entry] has the key [left_letter]; [o] is the object of [self]. *)
Definition ensure_entry (h : store) (self : ref) (o : object) (left_letter : ascii)
    : store :=
  if dict_contains (_entry o) left_letter then h
  else
    let '(new, h') := _Trie.__init__ left_letter h in
    _Trie.entry_setitem h' self left_letter new.

(** [u] is the beginning of an inserted word followed by [_LAST]. *)
Definition stored (ws : list string) (u : string) : Prop :=
  ∃ w s, w ∈ ws ∧ u +:+ s = w +:+ String _LAST "".

(** [c] occurs in [s]. *)
Fixpoint occurs (c : ascii) (s : string) : bool :=
  match s with
  | "" => false
  | String c' s' => bool_decide (c' = c) || occurs c s'
  end.

(** The paths from the root of a dictionary are the beginnings of the
    words of [ws], each followed by [_LAST]. *)
Definition content (ws : list string) (self : Words.t) : Prop :=
  ∀ u, is_Some (walk (Words.heap self) (Words._trie self) u) ↔ u = "" ∨ stored ws u.

(** Every character of [s] is of the class. *)
Fixpoint only (class : ascii → bool) (s : string) : bool :=
  match s with
  | "" => true
  | String c s' => class c && only class s'
  end.

(** The store [h'] has the objects of [h], each with its letter and with
    its entries at the head of its entries, and maybe more objects. *)
Definition extends (h h' : store) : Prop :=
  ∀ a o, h !! a = Some o →
    ∃ o', h' !! a = Some o' ∧ _letter o' = _letter o ∧ _entry o `prefix_of` _entry o'.

(** How many letters of [u], from its first, are a path from [a]. *)
Fixpoint known (h : store) (a : ref) (u : string) : nat :=
  match u with
  | "" => 0
  | String c u' =>
      match _Trie.entry_getitem h a c with
      | Ok b => S (known h b u')
      | Raise _ => 0
      end
  end.

(** The exception that a result carries, if any. *)
Definition raised {A : Type} (r : result A) : option exn :=
  match r with
  | Ok _ => None
  | Raise e => Some e
  end.

(** ** The examples of the program *)

(** What a public method returns: [None], a truth value or a list. *)
Inductive value : Set :=
  | VNone
  | VBool (b : bool)
  | VList (l : list string).

(** What a call returns or raises. *)
Definition answer (c : call) (self : Words.t) : result value :=
  match c with
  | AddWord word => _ ← (Words.add_word word self).1; Ok VNone
  | Contains word => b ← (Words.contains word self).1; Ok (VBool b)
  | Search word => l ← (Words.search word self).1; Ok (VList l)
  end.

(** The answers of the calls of a program, one after the other. *)
Fixpoint answers (cs : list call) (self : Words.t) : list (result value) :=
  match cs with
  | [] => []
  | c :: cs' => answer c self :: answers cs' (step c self)
  end.

Definition DoExamples : list call :=
  [AddWord "bad"; AddWord "dad"; AddWord "mad"; AddWord "magic";
   Contains "pad"; Contains "bad"; Contains ".ad"; Contains "b..";
   Search "ma"; Search "mag"; Search "g"; Search ".ad"].

Definition DoMoreExamples : list call :=
  [AddWord "mad"; AddWord "madmax"; Search "mad"; Contains ""; Search "";
   AddWord ""; Contains ""; Search ""; Contains "$"].

(** What [DoExamples()] prints, line by line. *)
Example DoExamples_answers :
  answers DoExamples Words.__init__ =
    [Ok VNone; Ok VNone; Ok VNone; Ok VNone;
     Ok (VBool false); Ok (VBool true); Ok (VBool true); Ok (VBool true);
     Ok (VList ["mad"; "magic"]); Ok (VList ["magic"]); Ok (VList []);
     Raise (WordsError BadInputLetters)].
Proof. vm_compute. done. Qed.

(** What [DoMoreExamples()] prints, line by line. *)
Example DoMoreExamples_answers :
  answers DoMoreExamples Words.__init__ =
    [Ok VNone; Ok VNone; Ok (VList ["mad"; "madmax"]); Ok (VBool false);
     Ok (VList ["mad"; "madmax"]); Ok VNone; Ok (VBool true);
     Ok (VList ["mad"; "madmax"; ""]);
     Raise (WordsError BadInputLettersAndDot)].
Proof. vm_compute. done. Qed.

(** The store after [add_word("ab")] and [add_word("ac")]: the root, the
    node of [a] with its two entries, and the end marker under each word. *)
Example store_ab_ac :
  Words.heap (after [AddWord "ab"; AddWord "ac"]) =
    [Object "^" [("a"%char, 1)];
     Object "a" [("b"%char, 2); ("c"%char, 4)];
     Object "b" [("$"%char, 3)];
     Object "$" [];
     Object "c" [("$"%char, 5)];
     Object "$" []].
Proof. vm_compute. done. Qed.

(** [re.match] with the two patterns, on strings with a newline: a newline
    at the very end is let through, any other is not. *)
Example re_match_newline :
  re_match Words._LETTERS_PATTERN (String "a" (String "010" "")) = true ∧
  re_match Words._LETTERS_PATTERN (String "010" "") = true ∧
  re_match Words._LETTERS_PATTERN (String "a" (String "010" (String "010" ""))) = false ∧
  re_match Words._LETTERS_PATTERN (String "a" (String "010" (String "b" ""))) = false ∧
  re_match Words._LETTERS_PATTERN (String "a" (String "." (String "010" ""))) = false ∧
  re_match Words._LETTERS_AND_DOT_PATTERN (String "a" (String "." (String "010" ""))) = true.
Proof. vm_compute. done. Qed.

(** * Proofs *)

(** ** Dictionaries *)

Lemma dict_contains_keys (d : dict) (k : ascii) :
  dict_contains d k = true ↔ k ∈ dict_keys d.
Proof.
  unfold dict_keys. induction d as [|[k' v] d IH]; simpl.
  - split; [done | by intros ?%elem_of_nil].
  - rewrite elem_of_cons. case_decide as Hk.
    + split; [intros _; by left | done].
    + rewrite IH. split; [by right | intros [?|?]; [congruence | done]].
Qed.

Lemma dict_contains_false (d : dict) (k : ascii) :
  dict_contains d k = false ↔ k ∉ dict_keys d.
Proof.
  rewrite <- dict_contains_keys. destruct (dict_contains d k); naive_solver.
Qed.

Lemma dict_getitem_elem (d : dict) (k : ascii) (v : ref) :
  dict_getitem d k = Ok v → (k, v) ∈ d.
Proof.
  induction d as [|[k' v'] d IH]; simpl; [done|].
  rewrite elem_of_cons. case_decide.
  - intros [= ->]. left. by subst.
  - intros H'. right. by apply IH.
Qed.

Lemma dict_getitem_unique (d : dict) (k : ascii) (v : ref) :
  NoDup (dict_keys d) → (k, v) ∈ d → dict_getitem d k = Ok v.
Proof.
  unfold dict_keys. induction d as [|[k' v'] d IH]; simpl.
  - by intros _ ?%elem_of_nil.
  - intros [Hk Hd]%NoDup_cons [Heq|Hin]%elem_of_cons.
    + simplify_eq. by rewrite decide_True.
    + case_decide as Hkk; [|by apply IH].
      subst k'. destruct Hk. apply list_elem_of_fmap. by exists (k, v).
Qed.

Lemma dict_getitem_present (d : dict) (k : ascii) :
  dict_contains d k = true → ∃ v, dict_getitem d k = Ok v.
Proof.
  induction d as [|[k' v'] d IH]; simpl; [done|].
  case_decide; eauto.
Qed.

Lemma dict_getitem_absent (d : dict) (k : ascii) :
  dict_contains d k = false → dict_getitem d k = Raise KeyError.
Proof.
  induction d as [|[k' v'] d IH]; simpl; [done|].
  case_decide; [done | eauto].
Qed.

Lemma dict_getitem_contains (d : dict) (k : ascii) (v : ref) :
  dict_getitem d k = Ok v → dict_contains d k = true.
Proof.
  intros H. destruct (dict_contains d k) eqn:E; [done|].
  apply dict_getitem_absent in E. congruence.
Qed.

Lemma dict_setitem_absent (d : dict) (k : ascii) (v : ref) :
  dict_contains d k = false → dict_setitem d k v = d ++ [(k, v)].
Proof.
  induction d as [|[k' v'] d IH]; simpl; [done|].
  case_decide; [done|]. intros H'. by rewrite IH.
Qed.


(** ** The store *)

Lemma edge_getitem (h : store) (a : ref) (c : ascii) (b : ref) :
  _Trie.entry_getitem h a c = Ok b → edge h a c b.
Proof.
  unfold _Trie.entry_getitem, edge. destruct (h !! a) as [o|]; [|done].
  intros H%dict_getitem_elem. eauto.
Qed.

Lemma edge_lt (h : store) (a : ref) (c : ascii) (b : ref) :
  edge h a c b → a < length h.
Proof. intros (o & Ho & _). by eapply lookup_lt_Some. Qed.


(** ** Strings *)

Lemma app_String (c : ascii) (u v : string) :
  String c u +:+ v = String c (u +:+ v).
Proof. done. Qed.

Lemma app_empty_l (v : string) : "" +:+ v = v.
Proof. done. Qed.

Lemma app_empty_r (u : string) : u +:+ "" = u.
Proof. induction u as [|c u IH]; [done|]. by rewrite app_String, IH. Qed.

Lemma app_assoc (u v w : string) : (u +:+ v) +:+ w = u +:+ (v +:+ w).
Proof. induction u as [|c u IH]; [done|]. by rewrite !app_String, IH. Qed.

Lemma app_eq_empty (u v : string) : u +:+ v = "" → u = "" ∧ v = "".
Proof. by destruct u. Qed.

Lemma string_snoc (u : string) :
  u = "" ∨ ∃ u' k, u = u' +:+ String k "".
Proof.
  induction u as [|c u [->|(u' & k & ->)]]; [by left | right..].
  - by exists "", c.
  - by exists (String c u'), k.
Qed.

(** ** Paths *)

Lemma walk_app (h : store) (a : ref) (u v : string) :
  walk h a (u +:+ v) = walk h a u ≫= λ b, walk h b v.
Proof.
  revert a. induction u as [|c u IH]; intros a; [done|].
  rewrite app_String. simpl. destruct (_Trie.entry_getitem h a c); [apply IH | done].
Qed.

Lemma walk_snoc (h : store) (a : ref) (u : string) (k : ascii) (b : ref) :
  walk h a (u +:+ String k "") = Some b ↔
  ∃ y, walk h a u = Some y ∧ _Trie.entry_getitem h y k = Ok b.
Proof.
  rewrite walk_app. destruct (walk h a u) as [y|]; simpl.
  - destruct (_Trie.entry_getitem h y k) as [b'|e] eqn:E.
    + split; [intros [= <-]; eauto | intros (? & [= <-] & ?); congruence].
    + split; [done | intros (? & [= <-] & ?); congruence].
  - split; [done | by intros (? & ? & _)].
Qed.

Section paths.
Variables (h : store) (root : ref).
Hypothesis Hinv : trie_inv (Words.Build h root).

Lemma edge_range (a : ref) (c : ascii) (b : ref) : edge h a c b → b < length h.
Proof.
  intros (o & Ho & _)%(inv_letter _ Hinv). by eapply lookup_lt_Some.
Qed.

Lemma walk_range (u : string) (a b : ref) :
  a < length h → walk h a u = Some b → b < length h.
Proof.
  revert a. induction u as [|c u IH]; simpl; intros a Ha.
  - by intros [= <-].
  - destruct (_Trie.entry_getitem h a c) as [y|] eqn:E; [|done].
    apply IH. by eapply edge_range, edge_getitem.
Qed.

Lemma walk_forward (u : string) (a b : ref) :
  walk h a u = Some b → a ≤ b ∧ (a = b → u = "").
Proof.
  revert a. induction u as [|c u IH]; simpl; intros a.
  - intros [= <-]. done.
  - destruct (_Trie.entry_getitem h a c) as [y|] eqn:E; [|done].
    intros [Hle _]%IH. apply edge_getitem, (inv_forward _ Hinv) in E. simpl in E. lia.
Qed.

End paths.

Section ensure.
Variables (h : store) (root a : ref) (o : object) (c : ascii).
Hypothesis Hinv : trie_inv (Words.Build h root).
Hypothesis Ha : h !! a = Some o.

Lemma ensure_entry_present :
  dict_contains (_entry o) c = true → ensure_entry h a o c = h.
Proof. unfold ensure_entry. by intros ->. Qed.

Hypothesis Hc : dict_contains (_entry o) c = false.

Lemma ensure_entry_absent :
  ensure_entry h a o c =
    <[a := Object (_letter o) (_entry o ++ [(c, length h)])]> (h ++ [Object c []]).
Proof.
  unfold ensure_entry, _Trie.__init__, _Trie.entry_setitem. rewrite Hc. simpl.
  rewrite lookup_app_l by (by eapply lookup_lt_Some).
  rewrite Ha. simpl. by rewrite dict_setitem_absent.
Qed.

Local Abbreviation h1 := (ensure_entry h a o c).

Lemma ensure_length : length h1 = S (length h).
Proof.
  rewrite ensure_entry_absent, length_insert, length_app. simpl. lia.
Qed.

Lemma ensure_lookup_self :
  h1 !! a = Some (Object (_letter o) (_entry o ++ [(c, length h)])).
Proof.
  rewrite ensure_entry_absent. apply list_lookup_insert_eq.
  rewrite length_app. apply lookup_lt_Some in Ha. lia.
Qed.

Lemma ensure_lookup_new : h1 !! length h = Some (Object c []).
Proof.
  rewrite ensure_entry_absent.
  rewrite list_lookup_insert_ne by (apply lookup_lt_Some in Ha; lia).
  rewrite lookup_app_r by lia. by rewrite Nat.sub_diag.
Qed.

Lemma ensure_lookup_other (x : ref) :
  x ≠ a → x ≠ length h → h1 !! x = h !! x.
Proof.
  intros Hxa Hxn. rewrite ensure_entry_absent.
  rewrite list_lookup_insert_ne by done.
  destruct (decide (x < length h)).
  - by rewrite lookup_app_l.
  - rewrite !lookup_ge_None_2; [done | lia | rewrite length_app; simpl; lia].
Qed.

Lemma ensure_edge (x : ref) (k : ascii) (y : ref) :
  edge h1 x k y ↔ edge h x k y ∨ (x = a ∧ k = c ∧ y = length h).
Proof.
  unfold edge. destruct (decide (x = a)) as [->|Hxa].
  - rewrite ensure_lookup_self, Ha. split.
    + intros (o' & [= <-] & Hin). simpl in Hin.
      apply elem_of_app in Hin as [Hin|Hin%list_elem_of_singleton]; [eauto|].
      right. by simplify_eq.
    + intros [(o' & [= <-] & Hin)|(_ & -> & ->)]; eexists; (split; [done|]);
        simpl; apply elem_of_app; [by left | right; by apply list_elem_of_singleton].
  - destruct (decide (x = length h)) as [->|Hxn].
    + rewrite ensure_lookup_new, lookup_ge_None_2 by lia. split.
      * by intros (o' & [= <-] & ?%elem_of_nil).
      * intros [(o' & ? & _)|(? & _)]; done.
    + rewrite ensure_lookup_other by done. split; [eauto|].
      intros [?|(? & _)]; done.
Qed.

Lemma ensure_letter (x : ref) (o' : object) :
  h !! x = Some o' → ∃ o'', h1 !! x = Some o'' ∧ _letter o'' = _letter o'.
Proof.
  intros Hx. destruct (decide (x = a)) as [->|Hxa].
  - rewrite ensure_lookup_self. simplify_eq. eauto.
  - rewrite ensure_lookup_other; [eauto | done |].
    apply lookup_lt_Some in Hx. lia.
Qed.

Lemma ensure_inv : trie_inv (Words.Build h1 root).
Proof.
  destruct Hinv as [Hroot Hkeys Hletter Hforward Hparent Howned]. simpl in *.
  assert (Hrange : ∀ x k y, edge h x k y → y < length h).
  { intros x k y (o' & Ho' & _)%Hletter. by eapply lookup_lt_Some. }
  split; simpl.
  - destruct Hroot as (o' & Ho' & Hl). apply ensure_letter in Ho' as (o'' & ? & ?).
    exists o''. split; [done | congruence].
  - intros x o' Hx. destruct (decide (x = a)) as [->|Hxa].
    + rewrite ensure_lookup_self in Hx. simplify_eq. simpl.
      unfold dict_keys. rewrite fmap_app. simpl. apply NoDup_app. split_and!.
      * by eapply Hkeys.
      * intros k Hk ->%list_elem_of_singleton.
        by apply dict_contains_false in Hc.
      * apply NoDup_singleton.
    + destruct (decide (x = length h)) as [->|Hxn].
      * rewrite ensure_lookup_new in Hx. simplify_eq. simpl. apply NoDup_nil_2.
      * rewrite ensure_lookup_other in Hx by done. by eapply Hkeys.
  - intros x k y [He|(-> & -> & ->)]%ensure_edge.
    + apply Hletter in He as (o' & Ho' & <-). by apply ensure_letter.
    + rewrite ensure_lookup_new. eauto.
  - intros x k y [He|(-> & -> & ->)]%ensure_edge; [by eapply Hforward|].
    by eapply lookup_lt_Some.
  - intros x x' k k' y [He|(-> & -> & ->)]%ensure_edge [He'|(-> & -> & He')]%ensure_edge.
    + by eapply Hparent.
    + subst y. apply Hrange in He. lia.
    + apply Hrange in He'. lia.
    + done.
  - intros b Hb Hbr. rewrite ensure_length in Hb.
    destruct (decide (b = length h)) as [->|Hbn].
    + exists a, c. apply ensure_edge. by right.
    + destruct (Howned b) as (x & k & He); [lia | done |].
      exists x, k. apply ensure_edge. by left.
Qed.

Lemma ensure_getitem_self : _Trie.entry_getitem h1 a c = Ok (length h).
Proof.
  unfold _Trie.entry_getitem. rewrite ensure_lookup_self. simpl.
  apply dict_getitem_unique.
  - pose proof (inv_keys _ ensure_inv a _ ensure_lookup_self) as Hk. done.
  - apply elem_of_app. right. by apply list_elem_of_singleton.
Qed.

Lemma ensure_getitem_new (k : ascii) :
  _Trie.entry_getitem h1 (length h) k = Raise KeyError.
Proof. unfold _Trie.entry_getitem. by rewrite ensure_lookup_new. Qed.

Lemma ensure_getitem_old : _Trie.entry_getitem h a c = Raise KeyError.
Proof.
  unfold _Trie.entry_getitem. rewrite Ha. by apply dict_getitem_absent.
Qed.

Lemma ensure_getitem_other (x : ref) (k : ascii) :
  x < length h → ¬ (x = a ∧ k = c) →
  _Trie.entry_getitem h1 x k = _Trie.entry_getitem h x k.
Proof.
  intros Hx Hne. unfold _Trie.entry_getitem.
  destruct (decide (x = a)) as [->|Hxa].
  - rewrite ensure_lookup_self, Ha. simpl.
    assert (k ≠ c) as Hk by naive_solver. clear -Hk.
    induction (_entry o) as [|[k' v'] d IH]; simpl.
    + by rewrite decide_False.
    + case_decide; [done | apply IH].
  - rewrite ensure_lookup_other; [done | done | lia].
Qed.

Lemma walk_alloc (u : string) (x y : ref) :
  x < length h →
  walk h1 x u = Some y ↔
  walk h x u = Some y ∨
  ∃ u1, u = u1 +:+ String c "" ∧ walk h x u1 = Some a ∧ y = length h.
Proof.
  revert x. induction u as [|k u IH]; intros x Hx.
  - simpl. split; [by left|]. intros [?|(u1 & Hu & _)]; [done|].
    symmetry in Hu. by apply app_eq_empty in Hu as [_ ?].
  - simpl. destruct (decide (x = a ∧ k = c)) as [[-> ->]|Hne].
    + rewrite ensure_getitem_self, ensure_getitem_old. split.
      * destruct u as [|k' u]; simpl.
        -- intros [= <-]. right. by exists "".
        -- by rewrite ensure_getitem_new.
      * intros [?|(u1 & Hu & Hw & ->)]; [done|].
        destruct u1 as [|k1 u1].
        -- rewrite app_empty_l in Hu. by injection Hu as ->.
        -- rewrite app_String in Hu. injection Hu as <- _.
           simpl in Hw. by rewrite ensure_getitem_old in Hw.
    + rewrite ensure_getitem_other by done.
      destruct (_Trie.entry_getitem h x k) as [b|e] eqn:E.
      * rewrite IH by (by eapply edge_range, edge_getitem). split.
        -- intros [?|(u1 & -> & Hw & ->)]; [by left | right].
           exists (String k u1). simpl. by rewrite E.
        -- intros [?|(u1 & Hu & Hw & ->)]; [by left | right].
           destruct u1 as [|k1 u1].
           ++ rewrite app_empty_l in Hu. injection Hu as Hk _.
              simpl in Hw. injection Hw as Hxa. by destruct Hne.
           ++ rewrite app_String in Hu. injection Hu as <- ->.
              simpl in Hw. rewrite E in Hw. by exists u1.
      * split; [done|]. intros [?|(u1 & Hu & Hw & ->)]; [done|].
        destruct u1 as [|k1 u1].
        -- rewrite app_empty_l in Hu. injection Hu as Hk _.
           simpl in Hw. injection Hw as Hxa. by destruct Hne.
        -- rewrite app_String in Hu. injection Hu as <- ->.
           simpl in Hw. by rewrite E in Hw.
Qed.

End ensure.

(** ** [_Trie.add_word] *)

Lemma add_word_unfold (w0 c : ascii) (r : string) (a : ref) (h : store) (o : object) :
  h !! a = Some o → _letter o = w0 →
  _Trie.add_word (String w0 (String c r)) a h =
    match _Trie.entry_getitem (ensure_entry h a o c) a c with
    | Ok child => _Trie.add_word (String c r) child (ensure_entry h a o c)
    | Raise e => (Raise e, ensure_entry h a o c)
    end.
Proof.
  intros Ha <-. cbn [_Trie.add_word]. rewrite Ha. by rewrite decide_True.
Qed.

Lemma ensure_spec (h : store) (root a : ref) (o : object) (c : ascii) :
  trie_inv (Words.Build h root) → h !! a = Some o → root ≤ a →
  trie_inv (Words.Build (ensure_entry h a o c) root) ∧
  ∃ b, _Trie.entry_getitem (ensure_entry h a o c) a c = Ok b ∧
    (∀ u, is_Some (walk (ensure_entry h a o c) root u) ↔
          is_Some (walk h root u) ∨
          ∃ u1, u = u1 +:+ String c "" ∧ walk h root u1 = Some a) ∧
    (∀ u, walk (ensure_entry h a o c) root u = Some b ↔
          ∃ u1, u = u1 +:+ String c "" ∧ walk h root u1 = Some a).
Proof.
  intros Hinv Ha Hroot. destruct (dict_contains (_entry o) c) eqn:Hc.
  - rewrite ensure_entry_present by done. split; [done|].
    destruct (dict_getitem_present _ _ Hc) as [b Hb]. exists b.
    assert (_Trie.entry_getitem h a c = Ok b) as Hab.
    { unfold _Trie.entry_getitem. by rewrite Ha. }
    split; [done|]. split.
    + intros u. split; [by left|]. intros [?|(u1 & -> & Hw)]; [done|].
      exists b. apply walk_snoc. eauto.
    + intros u. split.
      * intros Hw. destruct (string_snoc u) as [->|(u' & k & ->)].
        -- simpl in Hw. injection Hw as ->.
           apply edge_getitem, (inv_forward _ Hinv) in Hab. simpl in Hab. lia.
        -- apply walk_snoc in Hw as (y & Hy & Hyb).
           apply edge_getitem in Hab, Hyb.
           destruct (inv_parent _ Hinv _ _ _ _ _ Hab Hyb) as [<- <-].
           by exists u'.
      * intros (u1 & -> & Hw). apply walk_snoc. eauto.
  - assert (root < length h) as Hlt.
    { destruct (inv_root _ Hinv) as (o' & Ho' & _). by eapply lookup_lt_Some. }
    split; [by eapply ensure_inv|].
    exists (length h). split; [by eapply ensure_getitem_self|]. split.
    + intros u. split.
      * intros [y Hy]. eapply walk_alloc in Hy as [?|(u1 & -> & Hw & ->)]; eauto.
      * intros [[y Hy]|(u1 & -> & Hw)].
        -- exists y. eapply walk_alloc; eauto.
        -- exists (length h). eapply walk_alloc; eauto.
    + intros u. rewrite walk_alloc by done. split.
      * intros [Hw|(u1 & -> & Hw & _)]; [|by exists u1].
        eapply walk_range in Hw; [lia | done..].
      * intros (u1 & -> & Hw). right. by exists u1.
Qed.

Lemma add_word_spec (right : string) (w0 : ascii) (a : ref) (h : store)
    (root : ref) (o : object) :
  trie_inv (Words.Build h root) → h !! a = Some o → _letter o = w0 → root ≤ a →
  ∃ h', _Trie.add_word (String w0 right) a h = (Ok (), h') ∧
        trie_inv (Words.Build h' root) ∧
        (∀ u, is_Some (walk h' root u) ↔
              is_Some (walk h root u) ∨
              ∃ u1 u2 s, u = u1 +:+ u2 ∧ walk h root u1 = Some a ∧ u2 +:+ s = right).
Proof.
  revert w0 a h o. induction right as [|c rest IH]; intros w0 a h o Hinv Ha Hw0 Hroot.
  - exists h. simpl. rewrite Ha, decide_True by done. split_and!; [done..|].
    intros u. split; [by left|]. intros [?|(u1 & u2 & s & -> & Hw & Hs)]; [done|].
    apply app_eq_empty in Hs as [-> _]. rewrite app_empty_r. eauto.
  - rewrite (add_word_unfold _ _ _ _ _ _ Ha Hw0).
    destruct (ensure_spec h root a o c Hinv Ha Hroot) as (Hinv1 & b & Hgb & Hsome & Hb).
    rewrite Hgb. apply edge_getitem in Hgb as He.
    destruct (inv_letter _ Hinv1 _ _ _ He) as (ob & Hob & Hlb). simpl in Hob.
    apply (inv_forward _ Hinv1) in He. simpl in He.
    destruct (IH c b _ ob Hinv1 Hob Hlb ltac:(lia)) as (h' & -> & Hinv' & Hwalk).
    exists h'. split_and!; [done..|].
    intros u. rewrite Hwalk, Hsome. split.
    + intros [[?|(u1 & -> & Hw)]|(u1 & u2 & s & -> & (u1' & -> & Hw)%Hb & <-)].
      * by left.
      * right. by exists u1, (String c ""), rest.
      * right. exists u1', (String c u2), s. by rewrite app_assoc.
    + intros [?|(u1 & u2 & s & -> & Hw & Hs)]; [by left; left|].
      destruct u2 as [|k u2].
      * left. left. rewrite app_empty_r. eauto.
      * rewrite app_String in Hs. injection Hs as -> <-. right.
        exists (u1 +:+ String c ""), u2, s. rewrite app_assoc. split_and!; [done| |done].
        apply Hb. by exists u1.
Qed.


(** ** Validation *)

Lemma lowercase_plain (c : ascii) :
  lowercase c = true → c ≠ _LAST ∧ c ≠ _FIRST ∧ c ≠ "."%char ∧ c ≠ "010"%char.
Proof.
  destruct c as [[] [] [] [] [] [] [] []]; vm_compute; intros; split_and!; congruence.
Qed.

(** What the two patterns let through: the strings of characters of the
    class, and these strings followed by one newline. *)
Lemma re_match_only (class : ascii → bool) (s : string) :
  class "010"%char = false →
  re_match class s = true ↔
  only class s = true ∨ ∃ s', s = s' +:+ String "010" "" ∧ only class s' = true.
Proof.
  intros Hnl. induction s as [|c s IH]; simpl.
  - split; [by left | done].
  - destruct (class c) eqn:Hc; simpl.
    + rewrite IH. split.
      * intros [?|(s' & -> & Hs')]; [by left | right].
        exists (String c s'). simpl. by rewrite Hc.
      * intros [?|(s' & Hs & Hs')]; [by left | right].
        destruct s' as [|c' s'].
        -- rewrite app_empty_l in Hs. injection Hs as -> _. congruence.
        -- rewrite app_String in Hs. injection Hs as <- ->.
           simpl in Hs'. rewrite Hc in Hs'. by exists s'.
    + rewrite bool_decide_eq_true. split.
      * intros [-> ->]. right. by exists "".
      * intros [?|(s' & Hs & Hs')]; [done|].
        destruct s' as [|c' s'].
        -- rewrite app_empty_l in Hs. by injection Hs as -> ->.
        -- rewrite app_String in Hs. injection Hs as <- _.
           simpl in Hs'. by rewrite Hc in Hs'.
Qed.

Lemma re_match_letters_occurs (w : string) :
  re_match Words._LETTERS_PATTERN w = true → occurs _LAST w = false.
Proof.
  unfold Words._LETTERS_PATTERN. induction w as [|c w IH]; simpl; [done|].
  destruct (lowercase c) eqn:Hc.
  - intros ?%IH. apply lowercase_plain in Hc as (? & _).
    by rewrite bool_decide_eq_false_2.
  - intros [-> ->]%bool_decide_eq_true. done.
Qed.

(** An inserted word is followed by the only [_LAST] of its path. *)
Lemma last_unique (u w s : string) :
  occurs _LAST w = false →
  (u +:+ String _LAST "") +:+ s = w +:+ String _LAST "" → u = w ∧ s = "".
Proof.
  revert w. induction u as [|c u IH]; intros [|c' w]; simpl.
  - rewrite !app_empty_l, !app_String, app_empty_l. intros _ [= ->]. done.
  - rewrite !app_empty_l, !app_String, app_empty_l. intros Hw [= <- _].
    by rewrite bool_decide_eq_true_2 in Hw.
  - rewrite !app_String, !app_empty_l. intros _ [= -> H].
    by apply app_eq_empty in H as [[_ ?]%app_eq_empty _].
  - rewrite !app_String. intros [_ Hw]%orb_false_elim [= -> H].
    by destruct (IH _ Hw H) as [-> ->].
Qed.

(** ** Programs *)

Lemma run_app (cs cs' : list call) (self : Words.t) :
  run (cs ++ cs') self = run cs' (run cs self).
Proof. revert self. induction cs as [|c cs IH]; intros self; [done|]. apply IH. Qed.

Lemma inserted_app (cs cs' : list call) (self : Words.t) :
  inserted (cs ++ cs') self = inserted cs self ++ inserted cs' (run cs self).
Proof.
  revert self. induction cs as [|c cs IH]; intros self; [done|].
  simpl. by rewrite IH, (assoc_L (++)).
Qed.

Lemma after_snoc (cs : list call) (c : call) :
  after (cs ++ [c]) = step c (after cs).
Proof. unfold after. by rewrite run_app. Qed.

Lemma words_of_snoc (cs : list call) (c : call) :
  words_of (cs ++ [c]) =
    words_of cs ++
    match c with
    | AddWord word =>
        match (Words.add_word word (after cs)).1 with
        | Ok _ => [word]
        | Raise _ => []
        end
    | _ => []
    end.
Proof. unfold words_of. rewrite inserted_app. simpl. by rewrite (right_id_L [] (++)). Qed.

(** ** [Words.add_word] *)

Lemma stored_snoc (ws : list string) (w u : string) :
  stored (ws ++ [w]) u ↔ stored ws u ∨ ∃ s, u +:+ s = w +:+ String _LAST "".
Proof.
  unfold stored. split.
  - intros (w' & s & [Hin|Hin%list_elem_of_singleton]%elem_of_app & Hs).
    + left. by exists w', s.
    + subst w'. right. by exists s.
  - intros [(w' & s & Hin & Hs)|(s & Hs)].
    + exists w', s. split; [apply elem_of_app; by left | done].
    + exists w, s. split; [apply elem_of_app; right; by apply list_elem_of_singleton | done].
Qed.

Lemma Words_add_word_spec (ws : list string) (w : string) (self : Words.t) :
  trie_inv self → content ws self →
  re_match Words._LETTERS_PATTERN w = true →
  ∃ self', Words.add_word w self = (Ok (), self') ∧
           trie_inv self' ∧ content (ws ++ [w]) self'.
Proof.
  destruct self as [h root]. intros Hinv Hcont Hw.
  destruct (inv_root _ Hinv) as (o & Ho & Hlo). simpl in Ho.
  destruct (add_word_spec (w +:+ String _LAST "") _FIRST root h root o)
    as (h' & Hadd & Hinv' & Hwalk); [done..|].
  exists (Words.Build h' root). unfold Words.add_word, Words._pad_word.
  rewrite Hw. cbn [negb Words.heap Words._trie]. rewrite Hadd.
  split_and!; [done..|].
  intros u. simpl. rewrite Hwalk, stored_snoc. rewrite (Hcont u). simpl. split.
  - intros [[?|?]|(u1 & u2 & s & -> & Hu1 & Hs)]; [by left | by right; left |].
    apply (walk_forward _ _ Hinv) in Hu1 as [_ ->]; [|done].
    rewrite app_empty_l. right. right. by exists s.
  - intros [?|[?|(s & Hs)]]; [by left; left | by left; right |].
    right. by exists "", u, s.
Qed.

Lemma Words_add_word_invalid (w : string) (self : Words.t) :
  re_match Words._LETTERS_PATTERN w = false →
  Words.add_word w self = (Raise (WordsError BadInputLetters), self).
Proof. unfold Words.add_word. by intros ->. Qed.

(** ** Every dictionary that a program leaves is well formed *)

Lemma init_inv : trie_inv Words.__init__.
Proof.
  split; simpl.
  - by exists (Object _FIRST []).
  - intros [|a] o'; simpl; [intros [= <-]; apply NoDup_nil_2 | done].
  - intros [|a] c b (o' & Ho' & Hin); simpl in Ho'; [|done].
    injection Ho' as <-. by apply elem_of_nil in Hin.
  - intros [|a] c b (o' & Ho' & Hin); simpl in Ho'; [|done].
    injection Ho' as <-. by apply elem_of_nil in Hin.
  - intros [|a] a' c c' b (o' & Ho' & Hin); simpl in Ho'; [|done].
    injection Ho' as <-. by apply elem_of_nil in Hin.
  - intros b Hb Hne. lia.
Qed.

Lemma init_content : content [] Words.__init__.
Proof.
  intros u. simpl. split.
  - destruct u as [|c u]; [by left|]. simpl. by intros [? ?].
  - intros [->|(w & s & Hin & _)]; [by eexists | by apply elem_of_nil in Hin].
Qed.

Lemma after_good (cs : list call) :
  trie_inv (after cs) ∧ content (words_of cs) (after cs) ∧
  Forall (λ w, re_match Words._LETTERS_PATTERN w = true) (words_of cs).
Proof.
  induction cs as [|c cs (Hinv & Hcont & Hws)] using rev_ind.
  - split_and!; [apply init_inv | apply init_content | apply Forall_nil_2].
  - rewrite after_snoc, words_of_snoc. destruct c as [w|w|w]; simpl.
    + destruct (re_match Words._LETTERS_PATTERN w) eqn:Hw.
      * destruct (Words_add_word_spec _ w _ Hinv Hcont Hw) as (self' & -> & ? & ?).
        simpl. split_and!; [done..|].
        apply Forall_app. split; [done|]. by apply Forall_singleton.
      * rewrite Words_add_word_invalid by done. simpl.
        by rewrite (right_id_L [] (++)).
    + rewrite (right_id_L [] (++)). unfold Words.contains.
      by destruct (negb _).
    + rewrite (right_id_L [] (++)). unfold Words.search.
      by destruct (negb _).
Qed.


(** ** [_Trie.contains] *)

Lemma any_spec (f : ascii → result bool) (keys : list ascii) :
  (∀ k, k ∈ keys → ∃ r, f k = Ok r) →
  ∃ r, any f keys = Ok r ∧ (r = true ↔ ∃ k, k ∈ keys ∧ f k = Ok true).
Proof.
  induction keys as [|k keys IH]; intros Hf; simpl.
  - exists false. split; [done|]. split; [done|].
    by intros (k & ?%elem_of_nil & _).
  - destruct (Hf k) as [[] Hk]; [by left | |]; rewrite Hk.
    + exists true. split; [done|]. split; [|done]. intros _. exists k. split; [by left | done].
    + destruct IH as (r & -> & Hr); [intros; apply Hf; by right|].
      exists r. split; [done|]. rewrite Hr. split.
      * intros (k' & ? & ?). exists k'. split; [by right | done].
      * intros (k' & [->|?]%elem_of_cons & Hk'); [congruence | eauto].
Qed.

Lemma dot_match_empty (u : string) : dot_match "" u = true ↔ u = "".
Proof. by destruct u. Qed.

Lemma dot_match_cons (c : ascii) (p u : string) :
  dot_match (String c p) u = true ↔
  ∃ k u', u = String k u' ∧ (c = "."%char ∨ c = k) ∧ dot_match p u' = true.
Proof.
  destruct u as [|k u]; simpl.
  - split; [done | by intros (? & ? & ? & _)].
  - rewrite andb_true_iff, orb_true_iff, !bool_decide_eq_true. split.
    + intros [? ?]. by exists k, u.
    + by intros (? & ? & [= <- <-] & ? & ?).
Qed.

Section queries.
Variables (h : store) (root : ref).
Hypothesis Hinv : trie_inv (Words.Build h root).

Lemma getitem_walk (a : ref) (o : object) (k : ascii) (b : ref) (u : string) :
  h !! a = Some o → dict_getitem (_entry o) k = Ok b →
  walk h a (String k u) = walk h b u.
Proof. intros Ha Hb. simpl. unfold _Trie.entry_getitem. by rewrite Ha, Hb. Qed.

Lemma getitem_walk_absent (a : ref) (o : object) (k : ascii) (u : string) :
  h !! a = Some o → dict_contains (_entry o) k = false →
  walk h a (String k u) = None.
Proof.
  intros Ha Hb. simpl. unfold _Trie.entry_getitem.
  by rewrite Ha, dict_getitem_absent.
Qed.

Lemma getitem_child (a : ref) (o : object) (k : ascii) (b : ref) :
  h !! a = Some o → dict_getitem (_entry o) k = Ok b →
  a < b ∧ ∃ ob, h !! b = Some ob ∧ _letter ob = k.
Proof.
  intros Ha Hb. assert (edge h a k b) as He.
  { exists o. split; [done|]. by apply dict_getitem_elem. }
  split; [by apply (inv_forward _ Hinv) in He | by apply (inv_letter _ Hinv) in He].
Qed.

Lemma contains_spec (p : string) (w0 : ascii) (a : ref) :
  a < length h →
  ∃ r, _Trie.contains (String w0 (p +:+ String _LAST "")) a h = Ok r ∧
       (r = true ↔
        ∃ u, dot_match p u = true ∧ is_Some (walk h a (u +:+ String _LAST ""))).
Proof.
  revert w0 a. induction p as [|c p IH]; intros w0 a Ha;
    destruct (lookup_lt_is_Some_2 _ _ Ha) as [o Ho].
  - rewrite app_empty_l. cbn [_Trie.contains]. rewrite Ho.
    rewrite decide_True by done.
    destruct (dict_contains (_entry o) _LAST) eqn:Hc; cbn [negb].
    + destruct (dict_getitem_present _ _ Hc) as [b Hb]. rewrite Hb.
      destruct (getitem_child _ _ _ _ Ho Hb) as (_ & ob & Hob & Hlb).
      cbn. rewrite Hob, bool_decide_eq_true_2 by done.
      exists true. split; [done|]. split; [|done]. intros _. exists "".
      split; [done|]. rewrite app_empty_l, (getitem_walk _ _ _ _ _ Ho Hb). by eexists.
    + exists false. split; [done|]. split; [done|].
      intros (u & ->%dot_match_empty & Hu).
      rewrite app_empty_l, (getitem_walk_absent _ _ _ _ Ho Hc) in Hu. by destruct Hu.
  - rewrite app_String. cbn [_Trie.contains]. rewrite Ho. case_decide as Hdot.
    + destruct (dict_contains (_entry o) c) eqn:Hc; cbn [negb].
      * destruct (dict_getitem_present _ _ Hc) as [b Hb]. rewrite Hb.
        destruct (getitem_child _ _ _ _ Ho Hb) as (_ & ob & Hob & _).
        destruct (IH c b) as (r & Hr & Hiff); [by eapply lookup_lt_Some|].
        exists r. split; [done|]. rewrite Hiff. split.
        -- intros (u & Hu & Hw). exists (String c u). split.
           ++ apply dot_match_cons. exists c, u. auto.
           ++ by rewrite app_String, (getitem_walk _ _ _ _ _ Ho Hb).
        -- intros (u & (k & u' & -> & [?|<-] & Hu')%dot_match_cons & Hw); [done|].
           exists u'. split; [done|].
           by rewrite app_String, (getitem_walk _ _ _ _ _ Ho Hb) in Hw.
      * exists false. split; [done|]. split; [done|].
        intros (u & (k & u' & -> & [?|<-] & Hu')%dot_match_cons & Hw); [done|].
        rewrite app_String, (getitem_walk_absent _ _ _ _ Ho Hc) in Hw. by destruct Hw.
    + subst c.
      destruct (any_spec
        (λ c, child ← dict_getitem (_entry o) c;
              _Trie.contains (String "." (p +:+ String _LAST "")) child h)
        (dict_keys (_entry o))) as (r & Hr & Hiff).
      { intros k Hk%dict_contains_keys.
        destruct (dict_getitem_present _ _ Hk) as [b Hb]. rewrite Hb.
        destruct (getitem_child _ _ _ _ Ho Hb) as (_ & ob & Hob & _).
        destruct (IH "."%char b) as (r & Hr & _); [by eapply lookup_lt_Some|].
        by exists r. }
      exists r. split; [done|]. rewrite Hiff. split.
      * intros (k & Hk%dict_contains_keys & Hf).
        destruct (dict_getitem_present _ _ Hk) as [b Hb]. rewrite Hb in Hf.
        destruct (getitem_child _ _ _ _ Ho Hb) as (_ & ob & Hob & _).
        destruct (IH "."%char b) as (r' & Hr' & Hiff'); [by eapply lookup_lt_Some|].
        cbn [mbind result_bind] in Hf. rewrite Hr' in Hf. injection Hf as ->.
        destruct Hiff' as [Hiff' _]. destruct (Hiff' eq_refl) as (u & Hu & Hw).
        exists (String k u). split.
        -- apply dot_match_cons. exists k, u. auto.
        -- by rewrite app_String, (getitem_walk _ _ _ _ _ Ho Hb).
      * intros (u & (k & u' & -> & _ & Hu')%dot_match_cons & Hw).
        rewrite app_String in Hw. exists k.
        destruct (dict_contains (_entry o) k) eqn:Hk.
        2:{ rewrite (getitem_walk_absent _ _ _ _ Ho Hk) in Hw. by destruct Hw. }
        split; [by apply dict_contains_keys|].
        destruct (dict_getitem_present _ _ Hk) as [b Hb]. rewrite Hb.
        rewrite (getitem_walk _ _ _ _ _ Ho Hb) in Hw.
        destruct (getitem_child _ _ _ _ Ho Hb) as (_ & ob & Hob & _).
        destruct (IH "."%char b) as (r' & Hr' & Hiff'); [by eapply lookup_lt_Some|].
        cbn [mbind result_bind]. rewrite Hr'. f_equal. apply Hiff'. by exists u'.
Qed.

End queries.


(** ** [_Trie._get_all_suffixes] and [_Trie.search] *)

Lemma for_extend_spec (P : ascii → string → Prop)
    (f : ascii → result (list string)) (keys : list ascii) (acc : list string) :
  (∀ k, k ∈ keys → ∃ l, f k = Ok l ∧ NoDup l ∧ ∀ t, t ∈ l ↔ P k t) →
  (∀ k k' t, P k t → P k' t → k = k') →
  NoDup keys → NoDup acc →
  (∀ k t, k ∈ keys → t ∈ acc → ¬ P k t) →
  ∃ l, for_extend f keys acc = Ok l ∧ NoDup l ∧
       ∀ t, t ∈ l ↔ t ∈ acc ∨ ∃ k, k ∈ keys ∧ P k t.
Proof.
  intros Hf Hdisj. revert acc.
  induction keys as [|k keys IH]; intros acc Hkeys Hacc Hfresh; simpl.
  - exists acc. split_and!; [done..|]. intros t. split; [by left|].
    by intros [?|(k & ?%elem_of_nil & _)].
  - apply NoDup_cons in Hkeys as [Hk Hkeys].
    destruct (Hf k) as (l & -> & Hl & HP); [by left|].
    destruct (IH (λ k' Hk', Hf k' (list_elem_of_further _ _ _ Hk')) (acc ++ l))
      as (l' & -> & Hl' & HP'); [done | | |].
    + apply NoDup_app. split_and!; [done | | done].
      intros t Ht Htl%HP. eapply Hfresh; [by left | done..].
    + intros k' t Hk' [Ht|Ht%HP]%elem_of_app HPk'.
      * eapply (Hfresh k'); [by right | done..].
      * assert (k = k') as -> by eauto. done.
    + exists l'. split_and!; [done..|]. intros t. rewrite HP', elem_of_app, HP. split.
      * intros [[?|?]|(k' & ? & ?)]; [by left | right; exists k | right; exists k'];
          (split; [|done]); [by left | by right].
      * intros [?|(k' & [->|?]%elem_of_cons & ?)]; [by left; left | by left; right |].
        right. by exists k'.
Qed.

Lemma String_inj (k : ascii) : Inj (=) (=) (String k).
Proof. by intros ?? [= ->]. Qed.

Lemma occurs_cons (c k : ascii) (t : string) :
  occurs c (String k t) = false ↔ k ≠ c ∧ occurs c t = false.
Proof. simpl. rewrite orb_false_iff, bool_decide_eq_false. done. Qed.

Section suffixes.
Variables (h : store) (root : ref).
Hypothesis Hinv : trie_inv (Words.Build h root).

Lemma get_all_suffixes_spec (fuel : nat) (a : ref) :
  a < length h → length h ≤ fuel + a →
  ∃ l, _Trie._get_all_suffixes fuel a h = Ok l ∧ NoDup l ∧
       ∀ t, t ∈ l ↔
            occurs _LAST t = false ∧ is_Some (walk h a (t +:+ String _LAST "")).
Proof.
  revert a. induction fuel as [|fuel IH]; intros a Ha Hfuel; [lia|].
  destruct (lookup_lt_is_Some_2 _ _ Ha) as [o Ho]. simpl. rewrite Ho.
  set (P := λ (k : ascii) (t : string),
    (k = _LAST ∧ t = "") ∨
    (k ≠ _LAST ∧ ∃ b t', dict_getitem (_entry o) k = Ok b ∧ t = String k t' ∧
       occurs _LAST t' = false ∧ is_Some (walk h b (t' +:+ String _LAST "")))).
  match goal with
  | |- ∃ l, for_extend ?f ?keys ?acc = _ ∧ _ =>
      destruct (for_extend_spec P f keys acc) as (l & -> & Hl & HP)
  end.
  - intros k Hk%dict_contains_keys. case_decide as Hlast.
    + exists [""]. split_and!; [done | apply NoDup_singleton |].
      intros t. rewrite list_elem_of_singleton. unfold P. split.
      * intros ->. by left.
      * intros [[_ ->]|[? _]]; done.
    + destruct (dict_getitem_present _ _ Hk) as [b Hb]. rewrite Hb.
      destruct (getitem_child _ _ Hinv _ _ _ _ Ho Hb) as (Hab & ob & Hob & _).
      destruct (IH b) as (l & Hgas & Hl & Hspec); [by eapply lookup_lt_Some | lia |].
      cbn [mbind result_bind]. rewrite Hgas. cbn [mbind result_bind].
      exists (map (String k) l). split_and!; [done | |].
      * by apply (NoDup_fmap_2 _ (Inj0 := String_inj k)).
      * intros t. change (map (String k) l) with (String k <$> l).
        rewrite list_elem_of_fmap. unfold P. split.
        -- intros (t' & -> & [? ?]%Hspec). right. split; [done|]. by exists b, t'.
        -- intros [[? _]|(_ & b' & t' & Hb' & -> & Ht')]; [done|].
           exists t'. split; [done|]. apply Hspec. congruence.
  - unfold P. intros k k' t [[-> ->]|(_ & b & t' & _ & -> & _)]
      [[-> Ht]|(_ & b' & t'' & _ & Ht & _)]; congruence.
  - by eapply (inv_keys _ Hinv).
  - apply NoDup_nil_2.
  - by intros k t _ ?%elem_of_nil.
  - exists l. split_and!; [done..|]. intros t. rewrite HP. unfold P. split.
    + intros [?%elem_of_nil|(k & Hk%dict_contains_keys & HPk)]; [done|].
      destruct (dict_getitem_present _ _ Hk) as [b Hb].
      destruct HPk as [[-> ->]|(Hne & b' & t' & Hb' & -> & Ht' & Hw)].
      * split; [done|]. rewrite app_empty_l, (getitem_walk _ _ _ _ _ _ Ho Hb).
        by eexists.
      * split; [by apply occurs_cons|].
        by rewrite app_String, (getitem_walk _ _ _ _ _ _ Ho Hb').
    + intros [Ht Hw]. right. destruct t as [|k t].
      * exists _LAST. rewrite app_empty_l in Hw.
        destruct (dict_contains (_entry o) _LAST) eqn:Hk.
        2:{ rewrite (getitem_walk_absent _ _ _ _ _ Ho Hk) in Hw. by destruct Hw. }
        split; [by apply dict_contains_keys | by left].
      * exists k. apply occurs_cons in Ht as [Hne Ht]. rewrite app_String in Hw.
        destruct (dict_contains (_entry o) k) eqn:Hk.
        2:{ rewrite (getitem_walk_absent _ _ _ _ _ Ho Hk) in Hw. by destruct Hw. }
        split; [by apply dict_contains_keys|]. right. split; [done|].
        destruct (dict_getitem_present _ _ Hk) as [b Hb].
        rewrite (getitem_walk _ _ _ _ _ _ Ho Hb) in Hw. by exists b, t.
Qed.

Lemma search_spec (p : string) (w0 : ascii) (prefix : string) (a : ref) (fuel : nat) :
  a < length h → length h ≤ fuel → occurs _LAST p = false →
  ∃ l, _Trie.search (String w0 (p +:+ String _LAST "")) prefix a h fuel = Ok l ∧
       NoDup l ∧
       ∀ s, s ∈ l ↔
            ∃ t, s = prefix +:+ t ∧ occurs _LAST t = false ∧
                 is_Some (walk h a (p +:+ (t +:+ String _LAST ""))).
Proof.
  revert w0 a. induction p as [|c p IH]; intros w0 a Ha Hfuel Hp;
    destruct (lookup_lt_is_Some_2 _ _ Ha) as [o Ho].
  - rewrite app_empty_l. cbn [_Trie.search]. rewrite Ho.
    rewrite decide_False by (by intros ?).
    destruct (get_all_suffixes_spec fuel a) as (l & -> & Hl & Hspec); [done | lia |].
    cbn [mbind result_bind]. eexists. split_and!; [done | |].
    + apply (NoDup_fmap_2 _). done.
    + intros s. change (map ?f l) with (f <$> l). rewrite list_elem_of_fmap.
      split.
      * intros (t & -> & [? ?]%Hspec). by exists t.
      * intros (t & -> & ? & ?). exists t. split; [done|]. by apply Hspec.
  - apply occurs_cons in Hp as [Hc Hp].
    rewrite app_String. cbn [_Trie.search]. rewrite Ho.
    rewrite decide_True by done.
    destruct (dict_contains (_entry o) c) eqn:Hk; cbn [negb].
    + destruct (dict_getitem_present _ _ Hk) as [b Hb]. rewrite Hb.
      destruct (getitem_child _ _ Hinv _ _ _ _ Ho Hb) as (_ & ob & Hob & _).
      destruct (IH c b) as (l & Hl & Hnd & Hspec); [by eapply lookup_lt_Some | done..|].
      exists l. split_and!; [done..|]. intros s. rewrite Hspec.
      split; intros (t & ? & ? & Hw); exists t; (split_and!; [done..|]).
      * by rewrite app_String, (getitem_walk _ _ _ _ _ _ Ho Hb).
      * by rewrite app_String, (getitem_walk _ _ _ _ _ _ Ho Hb) in Hw.
    + exists []. split_and!; [done | apply NoDup_nil_2 |]. intros s. split.
      * by intros ?%elem_of_nil.
      * intros (t & _ & _ & Hw).
        rewrite app_String, (getitem_walk_absent _ _ _ _ _ Ho Hk) in Hw. by destruct Hw.
Qed.

End suffixes.


(** ** The public queries *)

Lemma occurs_app (c : ascii) (u v : string) :
  occurs c (u +:+ v) = occurs c u || occurs c v.
Proof.
  induction u as [|k u IH]; [done|].
  rewrite app_String. simpl. by rewrite IH, orb_assoc.
Qed.

Lemma prefix_spec (p w : string) :
  String.prefix p w = true ↔ ∃ t, w = p +:+ t.
Proof.
  revert w. induction p as [|c p IH]; intros [|k w]; simpl.
  - split; [by exists "" | done].
  - split; [intros _; exists (String k w); by rewrite app_empty_l | done].
  - split; [done | by intros [? ?]].
  - destruct (ascii_dec c k) as [->|Hne].
    + rewrite IH. split; intros [t Ht]; exists t.
      * by rewrite app_String, Ht.
      * rewrite app_String in Ht. by injection Ht.
    + split; [done|]. intros [t Ht]. rewrite app_String in Ht. by injection Ht.
Qed.

Lemma dot_match_refl (w : string) : dot_match w w = true.
Proof.
  induction w as [|c w IH]; [done|]. simpl.
  by rewrite IH, (bool_decide_eq_true_2 (c = c)), orb_true_r.
Qed.

Lemma dot_match_positions (p w : string) :
  dot_match p w = true ↔
  String.length w = String.length p ∧
  ∀ i c, String.get i p = Some c → c ≠ "."%char → String.get i w = Some c.
Proof.
  revert w. induction p as [|a p IH]; intros [|b w]; simpl.
  - split; [|done]. intros _. split; [done|]. by intros i c.
  - split; [done | by intros [? _]].
  - split; [done | by intros [? _]].
  - rewrite andb_true_iff, orb_true_iff, !bool_decide_eq_true, IH. split.
    + intros [Hab [Hlen Hpos]]. split; [by rewrite Hlen|].
      intros [|i] c; [|apply Hpos]. simpl. intros [= <-] Hdot.
      destruct Hab as [?|Hab]; [done | by rewrite Hab].
    + intros [Hlen Hpos]. split_and!.
      * destruct (decide (a = "."%char)) as [|Hdot]; [by left | right].
        specialize (Hpos 0 a eq_refl Hdot). by injection Hpos.
      * by injection Hlen.
      * intros i c. apply (Hpos (S i) c).
Qed.

Lemma root_lt (self : Words.t) :
  trie_inv self → Words._trie self < length (Words.heap self).
Proof. intros Hinv. destruct (inv_root _ Hinv) as (o & Ho & _). by eapply lookup_lt_Some. Qed.

Lemma words_of_occurs (cs : list call) (w : string) :
  w ∈ words_of cs → occurs _LAST w = false.
Proof.
  intros Hw. destruct (after_good cs) as (_ & _ & Hws).
  rewrite Forall_forall in Hws. by apply re_match_letters_occurs, Hws.
Qed.

Lemma stored_last (cs : list call) (u : string) :
  is_Some (walk (Words.heap (after cs)) (Words._trie (after cs))
             (u +:+ String _LAST "")) ↔
  u ∈ words_of cs.
Proof.
  destruct (after_good cs) as (_ & Hcont & _). rewrite (Hcont _). split.
  - intros [[_ ?]%app_eq_empty|(w & s & Hw & Hs)]; [done|].
    apply last_unique in Hs as [-> _]; [done | by eapply words_of_occurs].
  - intros Hu. right. exists u, "". by rewrite app_empty_r.
Qed.

Lemma Words_contains_spec (cs : list call) (p : string) :
  re_match Words._LETTERS_AND_DOT_PATTERN p = true →
  ∃ b, Words.contains p (after cs) = (Ok b, after cs) ∧
       (b = true ↔ ∃ w, w ∈ words_of cs ∧ dot_match p w = true).
Proof.
  intros Hp. destruct (after_good cs) as (Hinv & _ & _).
  unfold Words.contains, Words._pad_word. rewrite Hp. cbn [negb].
  destruct (after cs) as [h root] eqn:Hst.
  destruct (contains_spec h root Hinv p _FIRST root) as (b & Hb & Hiff);
    [by apply (root_lt _ Hinv)|].
  exists b. cbn [Words.heap Words._trie]. rewrite Hb. split; [done|].
  rewrite Hiff. split.
  - intros (u & Hu & Hw). exists u. split; [|done].
    apply stored_last. by rewrite Hst.
  - intros (w & Hw & Hm). exists w. split; [done|].
    apply stored_last in Hw. by rewrite Hst in Hw.
Qed.

Lemma Words_search_spec (cs : list call) (p : string) :
  re_match Words._LETTERS_PATTERN p = true →
  ∃ l, Words.search p (after cs) = (Ok l, after cs) ∧ NoDup l ∧
       ∀ w, w ∈ l ↔ w ∈ words_of cs ∧ ∃ t, w = p +:+ t.
Proof.
  intros Hp. destruct (after_good cs) as (Hinv & _ & _).
  unfold Words.search, Words._pad_word. rewrite Hp. cbn [negb].
  pose proof (stored_last cs) as Hstored.
  destruct (after cs) as [h root] eqn:Hst. cbn [Words.heap Words._trie] in *.
  destruct (search_spec h root Hinv p _FIRST p root (length h)) as (l & -> & Hl & Hiff);
    [by apply (root_lt _ Hinv) | done | by apply re_match_letters_occurs |].
  exists l. split_and!; [done..|]. intros w. rewrite Hiff. split.
  - intros (t & -> & Ht & Hw). rewrite <- app_assoc in Hw.
    apply Hstored in Hw. split; [done | by exists t].
  - intros (Hw & t & ->). exists t. split_and!; [done | |].
    + apply words_of_occurs in Hw. rewrite occurs_app in Hw.
      by apply orb_false_elim in Hw as [_ ?].
    + rewrite <- app_assoc. by apply Hstored.
Qed.


(** ** Inserting a word that is there *)

Lemma add_word_again (right : string) (w0 : ascii) (a : ref) (h : store) (o : object) :
  h !! a = Some o → _letter o = w0 →
  (∀ x c y, edge h x c y → ∃ oy, h !! y = Some oy ∧ _letter oy = c) →
  is_Some (walk h a right) →
  _Trie.add_word (String w0 right) a h = (Ok (), h).
Proof.
  intros Ha Hw0 Hletter. revert w0 a o Ha Hw0.
  induction right as [|c rest IH]; intros w0 a o Ha Hw0 Hw.
  - simpl. by rewrite Ha, decide_True.
  - rewrite (add_word_unfold _ _ _ _ _ _ Ha Hw0).
    simpl in Hw. destruct (_Trie.entry_getitem h a c) as [b|] eqn:Hb; [|by destruct Hw].
    assert (dict_contains (_entry o) c = true) as Hc.
    { unfold _Trie.entry_getitem in Hb. rewrite Ha in Hb.
      by eapply dict_getitem_contains. }
    rewrite ensure_entry_present, Hb by done.
    destruct (Hletter a c b) as (ob & Hob & Hlb); [by apply edge_getitem|].
    by eapply IH.
Qed.

Lemma Words_add_word_again (cs : list call) (w : string) :
  w ∈ words_of cs → Words.add_word w (after cs) = (Ok (), after cs).
Proof.
  intros Hw. destruct (after_good cs) as (Hinv & _ & Hws).
  rewrite Forall_forall in Hws. unfold Words.add_word, Words._pad_word.
  rewrite (Hws _ Hw). cbn [negb]. apply stored_last in Hw.
  destruct (after cs) as [h root]. cbn [Words.heap Words._trie] in *.
  destruct (inv_root _ Hinv) as (o & Ho & Hlo). simpl in Ho.
  rewrite (add_word_again _ _ _ _ o); [done..| |done].
  apply (inv_letter _ Hinv).
Qed.

(** ** The dictionary is a function of the words inserted *)

Lemma step_unchanged (cs : list call) (c : call) :
  step c (after cs) = after cs ∨
  ∃ w, c = AddWord w ∧ (Words.add_word w (after cs)).1 = Ok ().
Proof.
  destruct (after_good cs) as (Hinv & Hcont & _). destruct c as [w|w|w]; simpl.
  - destruct (re_match Words._LETTERS_PATTERN w) eqn:Hw.
    + right. exists w. split; [done|].
      by destruct (Words_add_word_spec _ w _ Hinv Hcont Hw) as (self' & -> & _).
    + left. by rewrite Words_add_word_invalid.
  - left. unfold Words.contains. by destruct (negb _).
  - left. unfold Words.search. by destruct (negb _).
Qed.

Lemma after_words_of (cs : list call) : after cs = after (AddWord <$> words_of cs).
Proof.
  induction cs as [|c cs IH] using rev_ind; [done|].
  rewrite after_snoc, words_of_snoc.
  destruct (step_unchanged cs c) as [Hsame|(w & -> & Hok)].
  - rewrite Hsame. destruct c as [w|w|w]; try by rewrite (right_id_L [] (++)).
    destruct (Words.add_word w (after cs)).1 eqn:Hr; [|by rewrite (right_id_L [] (++))].
    rewrite fmap_app. change (AddWord <$> [w]) with [AddWord w].
    by rewrite after_snoc, <- IH, Hsame.
  - rewrite Hok, fmap_app. change (AddWord <$> [w]) with [AddWord w].
    by rewrite after_snoc, <- IH.
Qed.

(** ** The nodes form a tree *)

Section tree.
Variable self : Words.t.
Hypothesis Hinv : trie_inv self.

Local Abbreviation h := (Words.heap self).
Local Abbreviation root := (Words._trie self).

Lemma edge_walk (a : ref) (c : ascii) (b : ref) :
  edge h a c b → _Trie.entry_getitem h a c = Ok b.
Proof.
  intros (o & Ho & Hin). unfold _Trie.entry_getitem. rewrite Ho.
  apply dict_getitem_unique; [by eapply (inv_keys _ Hinv) | done].
Qed.

Lemma no_cycle (a : ref) (u : string) : walk h a u = Some a → u = "".
Proof.
  destruct self as [h0 root0]. intros Hw.
  by apply (walk_forward _ _ Hinv) in Hw as [_ ->].
Qed.

Lemma path_exists (b : ref) : b < length h → ∃ u, walk h root u = Some b.
Proof.
  induction (lt_wf b) as [b _ IH]. intros Hb.
  destruct (decide (b = root)) as [->|Hne]; [by exists ""|].
  destruct (inv_owned _ Hinv b Hb Hne) as (a & c & He).
  destruct (IH a) as [u Hu].
  - by apply (inv_forward _ Hinv) in He.
  - by eapply edge_lt.
  - exists (u +:+ String c ""). apply walk_snoc. exists a. split; [done|].
    by apply edge_walk.
Qed.

Lemma path_unique (b : ref) (u u' : string) :
  walk h root u = Some b → walk h root u' = Some b → u = u'.
Proof.
  revert u u'. induction (lt_wf b) as [b _ IH]. intros u u' Hu Hu'.
  destruct (string_snoc u) as [->|(u1 & k & ->)].
  - simpl in Hu. injection Hu as <-. symmetry. by apply (no_cycle root).
  - destruct (string_snoc u') as [->|(u1' & k' & ->)].
    + simpl in Hu'. injection Hu' as <-. by apply (no_cycle root).
    + apply walk_snoc in Hu as (y & Hy & Hyb), Hu' as (y' & Hy' & Hyb').
      apply edge_getitem in Hyb, Hyb'.
      destruct (inv_parent _ Hinv _ _ _ _ _ Hyb Hyb') as [<- <-].
      f_equal. eapply IH; [|done..]. by apply (inv_forward _ Hinv) in Hyb.
Qed.

End tree.


(** ** The fuel of [_get_all_suffixes] *)

Lemma for_extend_ext (f g : ascii → result (list string)) (keys : list ascii)
    (acc l : list string) :
  (∀ k l', f k = Ok l' → g k = Ok l') →
  for_extend f keys acc = Ok l → for_extend g keys acc = Ok l.
Proof.
  intros Hfg. revert acc. induction keys as [|k keys IH]; intros acc; simpl; [done|].
  destruct (f k) as [l'|] eqn:Hk; [|done]. rewrite (Hfg _ _ Hk). apply IH.
Qed.

Lemma get_all_suffixes_mono (n m : nat) (a : ref) (h : store) (l : list string) :
  n ≤ m → _Trie._get_all_suffixes n a h = Ok l → _Trie._get_all_suffixes m a h = Ok l.
Proof.
  revert m a l. induction n as [|n IH]; intros [|m] a l Hnm; simpl; [done | done | lia |].
  destruct (h !! a) as [o|]; [|done]. apply for_extend_ext.
  intros k l'. case_decide; [done|].
  destruct (dict_getitem (_entry o) k) as [b|]; [|done]. cbn [mbind result_bind].
  destruct (_Trie._get_all_suffixes n b h) as [l''|] eqn:Hb; [|done].
  by rewrite (IH m b l'') by (done || lia).
Qed.

Lemma get_all_suffixes_fuel (self : Words.t) (a : ref) :
  trie_inv self → a < length (Words.heap self) →
  ∃ l, ∀ fuel, length (Words.heap self) ≤ fuel + a →
       _Trie._get_all_suffixes fuel a (Words.heap self) = Ok l.
Proof.
  destruct self as [h root]. simpl. intros Hinv Ha.
  destruct (get_all_suffixes_spec h root Hinv (length h - a) a) as (l & Hl & _);
    [done | lia |].
  exists l. intros fuel Hfuel. eapply get_all_suffixes_mono; [|done]. lia.
Qed.

(** ** Input that the validation refuses *)

Lemma Words_contains_invalid (w : string) (self : Words.t) :
  re_match Words._LETTERS_AND_DOT_PATTERN w = false →
  Words.contains w self = (Raise (WordsError BadInputLettersAndDot), self).
Proof. unfold Words.contains. by intros ->. Qed.

Lemma Words_search_invalid (w : string) (self : Words.t) :
  re_match Words._LETTERS_PATTERN w = false →
  Words.search w self = (Raise (WordsError BadInputLetters), self).
Proof. unfold Words.search. by intros ->. Qed.

(** A string with a character outside the class is refused, unless that
    character is a newline at the very end. *)
Lemma re_match_refuses (class : ascii → bool) (u v : string) (c : ascii) :
  class c = false → ¬ (c = "010"%char ∧ v = "") →
  re_match class (u +:+ String c v) = false.
Proof.
  intros Hc Hnl. induction u as [|k u IH].
  - rewrite app_empty_l. simpl. rewrite Hc. by apply bool_decide_eq_false.
  - rewrite app_String. simpl. destruct (class k); [done|].
    apply bool_decide_eq_false. intros [_ Hu]. by destruct u.
Qed.

Lemma re_match_letters_dot (w : string) :
  re_match Words._LETTERS_PATTERN w = true →
  re_match Words._LETTERS_AND_DOT_PATTERN w = true.
Proof.
  unfold Words._LETTERS_PATTERN, Words._LETTERS_AND_DOT_PATTERN, lowercase_or_dot.
  induction w as [|c w IH]; simpl; [done|].
  destruct (lowercase c); simpl; [done|].
  intros [-> ->]%bool_decide_eq_true. done.
Qed.

Lemma step_inv (self : Words.t) (c : call) : trie_inv self → trie_inv (step c self).
Proof.
  intros Hinv. destruct c as [w|w|w]; simpl.
  - unfold Words.add_word. destruct (re_match Words._LETTERS_PATTERN w); [|done].
    cbn [negb]. destruct self as [h root].
    destruct (inv_root _ Hinv) as (o & Ho & Hlo). simpl in Ho.
    destruct (add_word_spec (w +:+ String _LAST "") _FIRST root h root o)
      as (h' & Hadd & Hinv' & _); [done..|].
    unfold Words._pad_word. cbn [Words.heap Words._trie]. by rewrite Hadd.
  - unfold Words.contains. by destruct (negb _).
  - unfold Words.search. by destruct (negb _).
Qed.

Lemma words_of_app (cs cs' : list call) (w : string) :
  w ∈ words_of cs → w ∈ words_of (cs ++ cs').
Proof. unfold words_of. rewrite inserted_app, elem_of_app. by left. Qed.

Lemma words_of_added (cs : list call) (w : string) :
  re_match Words._LETTERS_PATTERN w = true →
  Words.add_word w (after cs) = (Ok (), after (cs ++ [AddWord w])) ∧
  words_of (cs ++ [AddWord w]) = words_of cs ++ [w].
Proof.
  intros Hw. destruct (after_good cs) as (Hinv & Hcont & _).
  destruct (Words_add_word_spec _ w _ Hinv Hcont Hw) as (self' & Hadd & _).
  rewrite after_snoc, words_of_snoc. simpl. by rewrite Hadd.
Qed.

(** ** The queries leave the dictionary alone *)

Lemma search_state (word : string) (self : Words.t) : (Words.search word self).2 = self.
Proof. unfold Words.search. by destruct (negb _). Qed.

Lemma contains_state (word : string) (self : Words.t) :
  (Words.contains word self).2 = self.
Proof. unfold Words.contains. by destruct (negb _). Qed.

(** * The properties of the specification *)

(** C1.  After any program, when the validation of [search] accepts the
    prefix [p] (it matches [^[a-z]*$]), [search(p)] returns a list whose
    members are exactly the inserted words that start with [p].  For the
    empty prefix these are all the inserted words, the empty word among
    them when it was inserted; and the list is empty when no inserted word
    starts with [p]. *)
Theorem C1_search_exact (cs : list call) (p : string) :
  re_match Words._LETTERS_PATTERN p = true →
  ∃ l, (Words.search p (after cs)).1 = Ok l ∧
       (∀ w, w ∈ l ↔ w ∈ words_of cs ∧ String.prefix p w = true) ∧
       (p = "" → ∀ w, w ∈ l ↔ w ∈ words_of cs) ∧
       ((∀ w, w ∈ words_of cs → String.prefix p w = false) → l = []).
Proof.
  intros Hp. destruct (Words_search_spec cs p Hp) as (l & Hl & _ & Hiff).
  exists l. rewrite Hl. split_and!; [done | | |].
  - intros w. by rewrite Hiff, prefix_spec.
  - intros -> w. rewrite Hiff. split; [by intros [? _]|].
    intros Hw. split; [done|]. exists w. by rewrite app_empty_l.
  - intros Hnone. destruct l as [|w l]; [done|].
    destruct (Hiff w) as [[Hw Hpre] _]; [by left|].
    apply prefix_spec in Hpre. by rewrite Hnone in Hpre.
Qed.

Lemma C1_search_exact_witness :
  re_match Words._LETTERS_PATTERN "ma" = true ∧
  ∃ l, (Words.search "ma" (after DoExamples)).1 = Ok l ∧
       (∀ w, w ∈ l ↔ w ∈ words_of DoExamples ∧ String.prefix "ma" w = true) ∧
       ("ma" = "" → ∀ w, w ∈ l ↔ w ∈ words_of DoExamples) ∧
       ((∀ w, w ∈ words_of DoExamples → String.prefix "ma" w = false) → l = []).
Proof. split; [reflexivity | apply (C1_search_exact DoExamples "ma"); reflexivity]. Defined.

(** C2.  In any dictionary, when [add_word(w)] accepts [w] (it matches
    [^[a-z]*$]) the call returns, and [contains(w)] in the dictionary it
    leaves returns true. *)
Theorem C2_contains_after_add (cs : list call) (w : string) :
  re_match Words._LETTERS_PATTERN w = true →
  ∃ self', Words.add_word w (after cs) = (Ok (), self') ∧
           (Words.contains w self').1 = Ok true.
Proof.
  intros Hw. destruct (words_of_added cs w Hw) as [Hadd Hws].
  exists (after (cs ++ [AddWord w])). split; [done|].
  destruct (Words_contains_spec (cs ++ [AddWord w]) w) as (b & -> & Hb);
    [by apply re_match_letters_dot|].
  simpl. f_equal. apply Hb. exists w. split; [|apply dot_match_refl].
  rewrite Hws, elem_of_app, list_elem_of_singleton. by right.
Qed.

Lemma C2_contains_after_add_witness :
  re_match Words._LETTERS_PATTERN "magic" = true ∧
  ∃ self', Words.add_word "magic" (after DoMoreExamples) = (Ok (), self') ∧
           (Words.contains "magic" self').1 = Ok true.
Proof.
  split; [reflexivity | apply (C2_contains_after_add DoMoreExamples "magic"); reflexivity].
Defined.

(** C3.  After any program, when the validation of [contains] accepts the
    pattern [p] (it matches [^[a-z.]*$]), [contains(p)] returns true exactly
    when some inserted word has the length of [p] and carries, at every
    position where [p] has a character other than the dot, that character.
    A dot stands for one letter of the word and never for the end marker:
    with only the empty word inserted, [contains(".")] is false. *)
Theorem C3_contains_pattern (cs : list call) (p : string) :
  re_match Words._LETTERS_AND_DOT_PATTERN p = true →
  ∃ b, (Words.contains p (after cs)).1 = Ok b ∧
       (b = true ↔
        ∃ w, w ∈ words_of cs ∧ String.length w = String.length p ∧
             ∀ i c, String.get i p = Some c → c ≠ "."%char → String.get i w = Some c) ∧
       (Words.contains "." (after [AddWord ""])).1 = Ok false.
Proof.
  intros Hp. destruct (Words_contains_spec cs p Hp) as (b & -> & Hb).
  exists b. split_and!; [done | | by vm_compute].
  rewrite Hb. by setoid_rewrite dot_match_positions.
Qed.

Lemma C3_contains_pattern_witness :
  re_match Words._LETTERS_AND_DOT_PATTERN "b.." = true ∧
  ∃ b, (Words.contains "b.." (after DoExamples)).1 = Ok b ∧
       (b = true ↔
        ∃ w, w ∈ words_of DoExamples ∧ String.length w = String.length "b.." ∧
             ∀ i c, String.get i "b.." = Some c → c ≠ "."%char → String.get i w = Some c) ∧
       (Words.contains "." (after [AddWord ""])).1 = Ok false.
Proof.
  split; [reflexivity | apply (C3_contains_pattern DoExamples "b.."); reflexivity].
Defined.

(** What holds of the validation: a string with a character outside the
    class of the method is refused, with the state untouched and whatever
    the dictionary holds, unless that character is a newline that ends the
    string. *)
Lemma refused_input (self : Words.t) (u v : string) (c : ascii) :
  ¬ (c = "010"%char ∧ v = "") →
  (lowercase c = false →
   Words.add_word (u +:+ String c v) self = (Raise (WordsError BadInputLetters), self) ∧
   Words.search (u +:+ String c v) self = (Raise (WordsError BadInputLetters), self)) ∧
  (lowercase_or_dot c = false →
   Words.contains (u +:+ String c v) self =
     (Raise (WordsError BadInputLettersAndDot), self)).
Proof.
  intros Hnl. split.
  - intros Hc. split.
    + by apply Words_add_word_invalid, re_match_refuses.
    + by apply Words_search_invalid, re_match_refuses.
  - intros Hc. by apply Words_contains_invalid, re_match_refuses.
Qed.

(** C4.  The specification wants every input with a character outside
    [a-z] (outside [a-z.] for [contains]) refused with [WordsError] and the
    trie left as it was.  The program does not do so for a string that ends
    with a newline: the newline is outside both classes, yet the [$] of the
    patterns matches before it, so [add_word("a\n")] on the new dictionary
    returns and adds nodes to the trie, and [search("a\n")] and
    [contains("a\n")] return a value. *)
Theorem C4_trailing_newline_accepted :
  lowercase "010" = false ∧ lowercase_or_dot "010" = false ∧
  (Words.add_word (String "a" (String "010" "")) Words.__init__).1 = Ok () ∧
  (Words.add_word (String "a" (String "010" "")) Words.__init__).2 ≠ Words.__init__ ∧
  (Words.search (String "a" (String "010" "")) Words.__init__).1 = Ok [] ∧
  (Words.contains (String "a" (String "010" "")) Words.__init__).1 = Ok false.
Proof. vm_compute. split_and!; done. Qed.

(** C5.  In any dictionary, when [add_word(w)] accepts [w], both calls of
    [add_word(w)] return, the dictionary after the second call is the
    dictionary after the first (no node and no entry is added), and so every
    [contains] and every [search] returns the same after two calls as after one. *)
Theorem C5_add_word_idempotent (cs : list call) (w : string) :
  re_match Words._LETTERS_PATTERN w = true →
  (Words.add_word w (after cs)).1 = Ok () ∧
  (Words.add_word w (after (cs ++ [AddWord w]))).1 = Ok () ∧
  after (cs ++ [AddWord w; AddWord w]) = after (cs ++ [AddWord w]) ∧
  (∀ q, (Words.contains q (after (cs ++ [AddWord w; AddWord w]))).1 =
        (Words.contains q (after (cs ++ [AddWord w]))).1) ∧
  (∀ q, (Words.search q (after (cs ++ [AddWord w; AddWord w]))).1 =
        (Words.search q (after (cs ++ [AddWord w]))).1).
Proof.
  intros Hw. destruct (words_of_added cs w Hw) as [Hadd Hws].
  assert (Words.add_word w (after (cs ++ [AddWord w])) =
          (Ok (), after (cs ++ [AddWord w]))) as Hagain.
  { apply Words_add_word_again.
    rewrite Hws, elem_of_app, list_elem_of_singleton. by right. }
  assert (after (cs ++ [AddWord w; AddWord w]) = after (cs ++ [AddWord w])) as Hsame.
  { change [AddWord w; AddWord w] with ([AddWord w] ++ [AddWord w]).
    rewrite (assoc_L (++)), after_snoc. simpl. by rewrite Hagain. }
  rewrite Hadd, Hagain, Hsame. done.
Qed.

Lemma C5_add_word_idempotent_witness :
  re_match Words._LETTERS_PATTERN "mad" = true ∧
  (Words.add_word "mad" (after DoExamples)).1 = Ok () ∧
  (Words.add_word "mad" (after (DoExamples ++ [AddWord "mad"]))).1 = Ok () ∧
  after (DoExamples ++ [AddWord "mad"; AddWord "mad"]) = after (DoExamples ++ [AddWord "mad"]) ∧
  (∀ q, (Words.contains q (after (DoExamples ++ [AddWord "mad"; AddWord "mad"]))).1 =
        (Words.contains q (after (DoExamples ++ [AddWord "mad"]))).1) ∧
  (∀ q, (Words.search q (after (DoExamples ++ [AddWord "mad"; AddWord "mad"]))).1 =
        (Words.search q (after (DoExamples ++ [AddWord "mad"]))).1).
Proof.
  split; [reflexivity | apply (C5_add_word_idempotent DoExamples "mad"); reflexivity].
Defined.

(** C6.  Two distinct words that a program has inserted, in either order
    and with any other calls in between, are both contained; and they stay
    contained whatever calls follow. *)
Theorem C6_no_interference (cs : list call) (w1 w2 : string) :
  w1 ≠ w2 → w1 ∈ words_of cs → w2 ∈ words_of cs →
  ∀ cs', (Words.contains w1 (after (cs ++ cs'))).1 = Ok true ∧
         (Words.contains w2 (after (cs ++ cs'))).1 = Ok true.
Proof.
  intros _ H1 H2 cs'.
  assert (∀ w, w ∈ words_of cs → (Words.contains w (after (cs ++ cs'))).1 = Ok true)
    as Hin; [|by split; apply Hin].
  intros w Hw. destruct (after_good cs) as (_ & _ & Hws).
  rewrite Forall_forall in Hws.
  destruct (Words_contains_spec (cs ++ cs') w) as (b & -> & Hb);
    [by apply re_match_letters_dot, Hws|].
  simpl. f_equal. apply Hb. exists w.
  split; [by apply words_of_app | apply dot_match_refl].
Qed.

Lemma C6_no_interference_witness :
  "mad" ≠ "bad" ∧ "mad" ∈ words_of DoExamples ∧ "bad" ∈ words_of DoExamples ∧
  ∀ cs', (Words.contains "mad" (after (DoExamples ++ cs'))).1 = Ok true ∧
         (Words.contains "bad" (after (DoExamples ++ cs'))).1 = Ok true.
Proof.
  assert ("mad" ≠ "bad") as H0 by done.
  assert ("mad" ∈ words_of DoExamples) as H1 by (vm_compute; repeat constructor).
  assert ("bad" ∈ words_of DoExamples) as H2 by (vm_compute; repeat constructor).
  split_and!; [done..|]. apply (C6_no_interference DoExamples "mad" "bad" H0 H1 H2).
Defined.

(** C7.  The structural invariant [trie_inv] (the root carries [_FIRST];
    the node stored under a key carries that key as its letter; references
    go forward, a node is stored under one key of one node, every node but
    the root is stored somewhere) holds of the new dictionary and every
    public call, returning or raising, preserves it.  Under it the nodes are
    a tree: each node of the store is reached from the root by exactly one
    path, and no path leads from a node back to it. *)
Theorem C7_trie_invariant :
  trie_inv Words.__init__ ∧
  (∀ self c, trie_inv self → trie_inv (step c self)) ∧
  (∀ self, trie_inv self →
     (∀ b, b < length (Words.heap self) →
        ∃ u, walk (Words.heap self) (Words._trie self) u = Some b ∧
             ∀ u', walk (Words.heap self) (Words._trie self) u' = Some b → u' = u) ∧
     (∀ a u, walk (Words.heap self) a u = Some a → u = "")).
Proof.
  split_and!.
  - apply init_inv.
  - intros self c. apply step_inv.
  - intros self Hinv. split.
    + intros b Hb. destruct (path_exists self Hinv b Hb) as [u Hu].
      exists u. split; [done|]. intros u' Hu'. by eapply path_unique.
    + intros a u. by apply no_cycle.
Qed.

Lemma C7_trie_invariant_witness :
  trie_inv Words.__init__ ∧ trie_inv (step (AddWord "bad") Words.__init__).
Proof.
  split; [apply C7_trie_invariant|].
  apply (proj1 (proj2 C7_trie_invariant) Words.__init__ (AddWord "bad")).
  apply C7_trie_invariant.
Defined.

(** C8.  After any program, a public call raises [WordsError] when its
    validation refuses the word and returns otherwise.  An assertion that
    fails or an index out of the word, in any of the nested calls on the
    nodes, would come out of the public call as [AssertionError] or
    [IndexError]: none does. *)
Theorem C8_preconditions_hold (cs : list call) (word : string) :
  raised (Words.add_word word (after cs)).1 =
    (if re_match Words._LETTERS_PATTERN word then None
     else Some (WordsError BadInputLetters)) ∧
  raised (Words.contains word (after cs)).1 =
    (if re_match Words._LETTERS_AND_DOT_PATTERN word then None
     else Some (WordsError BadInputLettersAndDot)) ∧
  raised (Words.search word (after cs)).1 =
    (if re_match Words._LETTERS_PATTERN word then None
     else Some (WordsError BadInputLetters)).
Proof.
  split_and!.
  - destruct (re_match Words._LETTERS_PATTERN word) eqn:Hw.
    + by destruct (words_of_added cs word Hw) as [-> _].
    + by rewrite Words_add_word_invalid.
  - destruct (re_match Words._LETTERS_AND_DOT_PATTERN word) eqn:Hw.
    + by destruct (Words_contains_spec cs word Hw) as (b & -> & _).
    + by rewrite Words_contains_invalid.
  - destruct (re_match Words._LETTERS_PATTERN word) eqn:Hw.
    + by destruct (Words_search_spec cs word Hw) as (l & -> & _).
    + by rewrite Words_search_invalid.
Qed.

(** C9.  The list that [search] returns is a function of the words
    inserted so far: two programs that have inserted the same words in the
    same order, whatever else they called, get the same list, in the same
    order, for the same prefix; a second [search] right after the first
    returns the same list; and every string of the list is an inserted word
    that starts with the prefix. *)
Theorem C9_search_deterministic (cs1 cs2 : list call) (p : string) :
  words_of cs1 = words_of cs2 →
  (Words.search p (after cs1)).1 = (Words.search p (after cs2)).1 ∧
  (Words.search p (Words.search p (after cs1)).2).1 = (Words.search p (after cs1)).1 ∧
  ∀ l, (Words.search p (after cs1)).1 = Ok l →
       ∀ w, w ∈ l → w ∈ words_of cs1 ∧ String.prefix p w = true.
Proof.
  intros Hws. split_and!.
  - by rewrite (after_words_of cs1), (after_words_of cs2), Hws.
  - by rewrite search_state.
  - intros l Hl w Hw. destruct (re_match Words._LETTERS_PATTERN p) eqn:Hp.
    + destruct (Words_search_spec cs1 p Hp) as (l' & Hl' & _ & Hiff).
      rewrite Hl' in Hl. injection Hl as ->. apply Hiff in Hw as [? ?].
      by rewrite prefix_spec.
    + by rewrite Words_search_invalid in Hl.
Qed.

Lemma C9_search_deterministic_witness :
  words_of (DoExamples ++ [Search "ma"; AddWord "Mad"; Contains "b.."]) =
    words_of DoExamples ∧
  (Words.search "ma" (after (DoExamples ++ [Search "ma"; AddWord "Mad"; Contains "b.."]))).1 =
    (Words.search "ma" (after DoExamples)).1 ∧
  (Words.search "ma" (Words.search "ma"
     (after (DoExamples ++ [Search "ma"; AddWord "Mad"; Contains "b.."]))).2).1 =
    (Words.search "ma" (after (DoExamples ++ [Search "ma"; AddWord "Mad"; Contains "b.."]))).1 ∧
  ∀ l, (Words.search "ma"
          (after (DoExamples ++ [Search "ma"; AddWord "Mad"; Contains "b.."]))).1 = Ok l →
       ∀ w, w ∈ l →
            w ∈ words_of (DoExamples ++ [Search "ma"; AddWord "Mad"; Contains "b.."]) ∧
            String.prefix "ma" w = true.
Proof.
  split; [reflexivity|].
  apply (C9_search_deterministic
           (DoExamples ++ [Search "ma"; AddWord "Mad"; Contains "b.."]) DoExamples "ma").
  reflexivity.
Defined.

(** C10.  [contains] and [search] leave any dictionary as it was, for any
    input; so does [add_word] when its validation refuses the word; and
    after any program the list that [search] returns has no string twice. *)
Theorem C10_queries_read_only :
  (∀ self word, (Words.contains word self).2 = self ∧
                (Words.search word self).2 = self) ∧
  (∀ self word, re_match Words._LETTERS_PATTERN word = false →
                (Words.add_word word self).2 = self) ∧
  (∀ cs word l, (Words.search word (after cs)).1 = Ok l → NoDup l).
Proof.
  split_and!.
  - intros self word. split; [apply contains_state | apply search_state].
  - intros self word Hw. by rewrite Words_add_word_invalid.
  - intros cs word l Hl. destruct (re_match Words._LETTERS_PATTERN word) eqn:Hp.
    + destruct (Words_search_spec cs word Hp) as (l' & Hl' & Hnd & _).
      rewrite Hl' in Hl. by injection Hl as ->.
    + by rewrite Words_search_invalid in Hl.
Qed.

Lemma C10_queries_read_only_witness :
  re_match Words._LETTERS_PATTERN "Bad" = false ∧
  (Words.add_word "Bad" (after DoExamples)).2 = after DoExamples ∧
  ((Words.search "ma" (after DoExamples)).1 = Ok ["mad"; "magic"] ∧
   NoDup ["mad"; "magic"]).
Proof.
  split; [reflexivity|]. split.
  - apply (proj1 (proj2 C10_queries_read_only) (after DoExamples) "Bad"). reflexivity.
  - split; [reflexivity|].
    apply (proj2 (proj2 C10_queries_read_only) DoExamples "ma"). reflexivity.
Defined.

(** * Further properties of the program *)

(** ** The store only grows *)

Lemma extends_refl (h : store) : extends h h.
Proof. intros a o Ha. by exists o. Qed.

Lemma extends_trans (h1 h2 h3 : store) :
  extends h1 h2 → extends h2 h3 → extends h1 h3.
Proof.
  intros H12 H23 a o Ha.
  destruct (H12 a o Ha) as (o2 & Ha2 & Hl2 & He2).
  destruct (H23 a o2 Ha2) as (o3 & Ha3 & Hl3 & He3).
  exists o3. split_and!; [done | congruence | by etrans].
Qed.

Lemma extends_length (h h' : store) : extends h h' → length h ≤ length h'.
Proof.
  intros Hext. destruct (decide (length h = 0)) as [|Hne]; [lia|].
  destruct (lookup_lt_is_Some_2 h (length h - 1)) as [o Ho]; [lia|].
  destruct (Hext _ _ Ho) as (o' & Ho' & _). apply lookup_lt_Some in Ho'. lia.
Qed.

Lemma ensure_extends (h : store) (a : ref) (o : object) (c : ascii) :
  h !! a = Some o →
  extends h (ensure_entry h a o c) ∧ length (ensure_entry h a o c) ≤ S (length h).
Proof.
  intros Ha. destruct (dict_contains (_entry o) c) eqn:Hc.
  - rewrite ensure_entry_present by done. split; [apply extends_refl | lia].
  - split; [|by rewrite (ensure_length h a o c Ha Hc)].
    intros x ox Hx. destruct (decide (x = a)) as [->|Hxa].
    + rewrite (ensure_lookup_self h a o c Ha Hc). simplify_eq.
      eexists. split_and!; [done..|]. by apply prefix_app_r.
    + rewrite (ensure_lookup_other h a o c Ha Hc) by
        (done || (apply lookup_lt_Some in Hx; lia)).
      by exists ox.
Qed.

Lemma add_word_extends (right : string) (w0 : ascii) (a : ref) (h : store) :
  extends h (_Trie.add_word (String w0 right) a h).2 ∧
  length (_Trie.add_word (String w0 right) a h).2 ≤ length h + String.length right.
Proof.
  revert w0 a h. induction right as [|c rest IH]; intros w0 a h.
  - simpl. destruct (h !! a) as [o|]; [case_decide|]; simpl;
      (split; [apply extends_refl | lia]).
  - destruct (h !! a) as [o|] eqn:Ha.
    2:{ cbn [_Trie.add_word]. rewrite Ha. simpl. split; [apply extends_refl | lia]. }
    destruct (decide (w0 = _letter o)) as [Hw0|Hw0].
    2:{ cbn [_Trie.add_word]. rewrite Ha, decide_False by done. simpl.
        split; [apply extends_refl | lia]. }
    rewrite (add_word_unfold _ _ _ _ _ _ Ha (eq_sym Hw0)).
    destruct (ensure_extends h a o c Ha) as [Hext Hlen].
    destruct (_Trie.entry_getitem (ensure_entry h a o c) a c) as [b|e].
    + destruct (IH c b (ensure_entry h a o c)) as [Hext' Hlen'].
      split; [by eapply extends_trans|]. simpl in *. lia.
    + simpl. split; [done | lia].
Qed.

Lemma step_extends (c : call) (self : Words.t) :
  extends (Words.heap self) (Words.heap (step c self)) ∧
  Words._trie (step c self) = Words._trie self.
Proof.
  destruct c as [w|w|w]; simpl.
  - unfold Words.add_word. destruct (negb _); [split; [apply extends_refl | done]|].
    destruct (_Trie.add_word _ _ _) as [r h'] eqn:Hadd. simpl. split; [|done].
    pose proof (add_word_extends (w +:+ String _LAST "") _FIRST
                  (Words._trie self) (Words.heap self)) as [Hext _].
    unfold Words._pad_word in Hadd. by rewrite Hadd in Hext.
  - rewrite contains_state. split; [apply extends_refl | done].
  - rewrite search_state. split; [apply extends_refl | done].
Qed.

Lemma run_extends (cs : list call) (self : Words.t) :
  extends (Words.heap self) (Words.heap (run cs self)) ∧
  Words._trie (run cs self) = Words._trie self.
Proof.
  revert self. induction cs as [|c cs IH]; intros self; simpl.
  - split; [apply extends_refl | done].
  - destruct (step_extends c self) as [Hext Hroot].
    destruct (IH (step c self)) as [Hext' Hroot'].
    split; [by eapply extends_trans | congruence].
Qed.

Lemma string_length_app (u v : string) :
  String.length (u +:+ v) = String.length u + String.length v.
Proof. induction u as [|c u IH]; [done|]. rewrite app_String. simpl. by rewrite IH. Qed.

(** X2.  No public call, returning or raising, takes a node away, changes
    the letter of a node, or takes away or moves an entry of a node: the
    store after the call has the objects of the store before, each with its
    letter and with its entries, in their order, at the head of its
    entries; and the root stays the root. *)
Theorem X2_store_only_grows (self : Words.t) (c : call) :
  Words._trie (step c self) = Words._trie self ∧
  length (Words.heap self) ≤ length (Words.heap (step c self)) ∧
  ∀ a o, Words.heap self !! a = Some o →
    ∃ o', Words.heap (step c self) !! a = Some o' ∧ _letter o' = _letter o ∧
          _entry o `prefix_of` _entry o'.
Proof.
  destruct (step_extends c self) as [Hext Hroot].
  split_and!; [done | by apply extends_length | apply Hext].
Qed.

(** X3.  A call of [add_word(word)] makes at most one node for each
    character of the word and one for the end marker, whatever the
    dictionary holds and whether the call returns or raises. *)
Theorem X3_add_word_node_bound (self : Words.t) (word : string) :
  length (Words.heap (Words.add_word word self).2) ≤
    length (Words.heap self) + String.length word + 1.
Proof.
  unfold Words.add_word. destruct (negb _); [simpl; lia|].
  destruct (_Trie.add_word _ _ _) as [r h'] eqn:Hadd. simpl.
  pose proof (add_word_extends (word +:+ String _LAST "") _FIRST
                (Words._trie self) (Words.heap self)) as [_ Hlen].
  unfold Words._pad_word in Hadd. rewrite Hadd, string_length_app in Hlen.
  simpl in Hlen. lia.
Qed.

(** ** How many nodes [add_word] makes *)

Lemma known_le (h : store) (a : ref) (u : string) : known h a u ≤ String.length u.
Proof.
  revert a. induction u as [|c u IH]; intros a; simpl; [done|].
  destruct (_Trie.entry_getitem h a c) as [b|]; [|lia]. specialize (IH b). lia.
Qed.






(** ** Exact lookup *)

Lemma dot_match_plain (p w : string) :
  occurs "." p = false → dot_match p w = true ↔ p = w.
Proof.
  revert w. induction p as [|a p IH]; intros [|b w]; simpl; try done.
  rewrite orb_false_iff, bool_decide_eq_false. intros [Ha Hp].
  rewrite andb_true_iff, orb_true_iff, !bool_decide_eq_true, (IH _ Hp). split.
  - intros [[?|Hab] Hpw]; [done | by rewrite Hab, Hpw].
  - intros [= -> ->]. auto.
Qed.

Lemma re_match_letters_plain (w : string) :
  re_match Words._LETTERS_PATTERN w = true → occurs "." w = false.
Proof.
  unfold Words._LETTERS_PATTERN. induction w as [|c w IH]; simpl; [done|].
  destruct (lowercase c) eqn:Hc.
  - intros ?%IH. apply lowercase_plain in Hc as (_ & _ & ? & _).
    by rewrite bool_decide_eq_false_2.
  - intros [-> ->]%bool_decide_eq_true. done.
Qed.

(** X6.  For a word without a dot that the validation accepts, [contains]
    is exact membership: after any program [contains(w)] is true when [w]
    itself has been inserted and false otherwise (the beginning of a longer
    inserted word is not contained), and it agrees with [search]:
    [contains(w)] is true exactly when [search(w)] lists [w]. *)
Theorem X6_contains_exact (cs : list call) (w : string) :
  re_match Words._LETTERS_PATTERN w = true →
  ∃ l, (Words.contains w (after cs)).1 = Ok (bool_decide (w ∈ words_of cs)) ∧
       (Words.search w (after cs)).1 = Ok l ∧
       (w ∈ l ↔ w ∈ words_of cs).
Proof.
  intros Hw.
  destruct (Words_contains_spec cs w (re_match_letters_dot _ Hw)) as (b & -> & Hb).
  destruct (Words_search_spec cs w Hw) as (l & -> & _ & Hl).
  exists l. split_and!; [|done|].
  - simpl. f_equal. apply eq_true_iff_eq. rewrite Hb, bool_decide_eq_true. split.
    + intros (w' & Hw' & Hm).
      apply dot_match_plain in Hm as ->; [done | by apply re_match_letters_plain].
    + intros Hin. exists w. split; [done | apply dot_match_refl].
  - rewrite Hl. split; [by intros [? _]|]. intros Hin. split; [done|].
    exists "". by rewrite app_empty_r.
Qed.

Lemma X6_contains_exact_witness :
  re_match Words._LETTERS_PATTERN "ma" = true ∧
  ∃ l, (Words.contains "ma" (after DoExamples)).1 =
         Ok (bool_decide ("ma" ∈ words_of DoExamples)) ∧
       (Words.search "ma" (after DoExamples)).1 = Ok l ∧
       ("ma" ∈ l ↔ "ma" ∈ words_of DoExamples).
Proof.
  split; [reflexivity | apply (X6_contains_exact DoExamples "ma"); reflexivity].
Defined.

(** ** What later calls cannot undo *)

(** X7.  Nothing is ever forgotten: a pattern that [contains] finds after a
    program is found after any calls that follow, whatever they are. *)
Theorem X7_contains_stays_true (cs cs' : list call) (p : string) :
  (Words.contains p (after cs)).1 = Ok true →
  (Words.contains p (after (cs ++ cs'))).1 = Ok true.
Proof.
  intros Htrue. destruct (re_match Words._LETTERS_AND_DOT_PATTERN p) eqn:Hp.
  - destruct (Words_contains_spec cs p Hp) as (b & Hb & Hiff).
    rewrite Hb in Htrue. injection Htrue as ->.
    destruct Hiff as [Hiff _]. destruct (Hiff eq_refl) as (w & Hw & Hm).
    destruct (Words_contains_spec (cs ++ cs') p Hp) as (b' & -> & Hiff').
    simpl. f_equal. apply Hiff'. exists w. split; [by apply words_of_app | done].
  - by rewrite Words_contains_invalid in Htrue.
Qed.

Lemma X7_contains_stays_true_witness :
  (Words.contains ".ad" (after DoExamples)).1 = Ok true ∧
  (Words.contains ".ad" (after (DoExamples ++ DoMoreExamples))).1 = Ok true.
Proof.
  split; [reflexivity | apply (X7_contains_stays_true DoExamples DoMoreExamples ".ad")].
  reflexivity.
Defined.

(** ** The dictionary as a set of words *)


(** X9.  The list of [search(p)] holds each inserted word that starts with
    [p] once, however often it was inserted: it is a rearrangement of the
    inserted words, without their repetitions, that start with [p]; so its
    length is the number of distinct inserted words with that beginning. *)
Theorem X9_search_distinct_words (cs : list call) (p : string) :
  re_match Words._LETTERS_PATTERN p = true →
  ∃ l, (Words.search p (after cs)).1 = Ok l ∧
       l ≡ₚ filter (λ w, String.prefix p w = true) (remove_dups (words_of cs)) ∧
       length l =
         length (filter (λ w, String.prefix p w = true) (remove_dups (words_of cs))).
Proof.
  intros Hp. destruct (Words_search_spec cs p Hp) as (l & -> & Hnd & Hl).
  exists l. split; [done|].
  assert (l ≡ₚ filter (λ w, String.prefix p w = true) (remove_dups (words_of cs)))
    as Hperm; [|split; [done | by rewrite Hperm]].
  apply NoDup_Permutation; [done | apply NoDup_filter, NoDup_remove_dups |].
  intros w. rewrite Hl, list_elem_of_filter, elem_of_remove_dups, prefix_spec.
  tauto.
Qed.

Lemma X9_search_distinct_words_witness :
  re_match Words._LETTERS_PATTERN "ma" = true ∧
  ∃ l, (Words.search "ma" (after (DoExamples ++ DoMoreExamples))).1 = Ok l ∧
       l ≡ₚ filter (λ w, String.prefix "ma" w = true)
              (remove_dups (words_of (DoExamples ++ DoMoreExamples))) ∧
       length l =
         length (filter (λ w, String.prefix "ma" w = true)
                   (remove_dups (words_of (DoExamples ++ DoMoreExamples)))).
Proof.
  split; [reflexivity|].
  apply (X9_search_distinct_words (DoExamples ++ DoMoreExamples) "ma"). reflexivity.
Defined.

(** X10.  The order in which words were inserted, and how often, shows in
    no answer of [contains] and only in the order of the list of [search]:
    two programs that have inserted the same words, in any order and any
    number of times, get the same answer from [contains] for every input,
    and from [search] lists that are rearrangements of one another. *)
Theorem X10_insertion_order_unobserved (cs1 cs2 : list call) (p : string) :
  (∀ w, w ∈ words_of cs1 ↔ w ∈ words_of cs2) →
  (Words.contains p (after cs1)).1 = (Words.contains p (after cs2)).1 ∧
  match (Words.search p (after cs1)).1, (Words.search p (after cs2)).1 with
  | Ok l1, Ok l2 => l1 ≡ₚ l2
  | Raise e1, Raise e2 => e1 = e2
  | _, _ => False
  end.
Proof.
  intros Hsame. split.
  - destruct (re_match Words._LETTERS_AND_DOT_PATTERN p) eqn:Hp.
    + destruct (Words_contains_spec cs1 p Hp) as (b1 & -> & Hb1).
      destruct (Words_contains_spec cs2 p Hp) as (b2 & -> & Hb2).
      simpl. f_equal. apply eq_true_iff_eq. rewrite Hb1, Hb2.
      by setoid_rewrite Hsame.
    + by rewrite !Words_contains_invalid.
  - destruct (re_match Words._LETTERS_PATTERN p) eqn:Hp.
    + destruct (Words_search_spec cs1 p Hp) as (l1 & -> & Hnd1 & Hl1).
      destruct (Words_search_spec cs2 p Hp) as (l2 & -> & Hnd2 & Hl2).
      simpl. apply NoDup_Permutation; [done..|].
      intros w. by rewrite Hl1, Hl2, Hsame.
    + by rewrite !Words_search_invalid.
Qed.

Lemma X10_insertion_order_unobserved_witness :
  (∀ w, w ∈ words_of [AddWord "mad"; AddWord "bad"; AddWord "mad"] ↔
        w ∈ words_of [AddWord "bad"; AddWord "mad"]) ∧
  (Words.contains "" (after [AddWord "mad"; AddWord "bad"; AddWord "mad"])).1 =
    (Words.contains "" (after [AddWord "bad"; AddWord "mad"])).1 ∧
  match (Words.search "" (after [AddWord "mad"; AddWord "bad"; AddWord "mad"])).1,
        (Words.search "" (after [AddWord "bad"; AddWord "mad"])).1 with
  | Ok l1, Ok l2 => l1 ≡ₚ l2
  | Raise e1, Raise e2 => e1 = e2
  | _, _ => False
  end.
Proof.
  assert (∀ w, w ∈ words_of [AddWord "mad"; AddWord "bad"; AddWord "mad"] ↔
               w ∈ words_of [AddWord "bad"; AddWord "mad"]) as Hsame.
  { intros w. change (w ∈ ["mad"; "bad"; "mad"] ↔ w ∈ ["bad"; "mad"]).
    rewrite !elem_of_cons. tauto. }
  split; [exact Hsame|].
  exact (X10_insertion_order_unobserved
           [AddWord "mad"; AddWord "bad"; AddWord "mad"]
           [AddWord "bad"; AddWord "mad"] "" Hsame).
Defined.

(** ** The loop of [_get_all_suffixes], key by key *)

Lemma for_extend_concat (f : ascii → result (list string)) (keys : list ascii)
    (acc l : list string) :
  for_extend f keys acc = Ok l ↔
  ∃ ls, Forall2 (λ k lk, f k = Ok lk) keys ls ∧ l = acc ++ concat ls.
Proof.
  revert acc. induction keys as [|k keys IH]; intros acc; simpl.
  - split.
    + intros [= <-]. exists []. split; [apply Forall2_nil_2 | simpl; by rewrite (right_id_L [] (++))].
    + intros (ls & ->%Forall2_nil_inv_l & ->). simpl. by rewrite (right_id_L [] (++)).
  - destruct (f k) as [lk|e] eqn:Hk.
    + rewrite IH. split.
      * intros (ls & Hls & ->). exists (lk :: ls). split; [by constructor|].
        simpl. by rewrite (assoc_L (++)).
      * intros (ls & (lk' & ls' & Hk' & Hls' & ->)%Forall2_cons_inv_l & ->).
        rewrite Hk in Hk'. injection Hk' as <-. exists ls'. split; [done|].
        simpl. by rewrite (assoc_L (++)).
    + split; [done|].
      intros (ls & (lk' & ls' & Hk' & _)%Forall2_cons_inv_l & _). congruence.
Qed.

Lemma Forall2_pointwise {A B C : Type} (P : A → B → Prop) (Q : A → C → Prop)
    (R : B → C → Prop) (keys : list A) (ls : list B) (ls' : list C) :
  Forall2 P keys ls → Forall2 Q keys ls' →
  (∀ k x y, k ∈ keys → P k x → Q k y → R x y) →
  Forall2 R ls ls'.
Proof.
  intros HP. revert ls'. induction HP as [|k x keys ls Hkx HP IH]; intros ls' HQ HR.
  - apply Forall2_nil_inv_l in HQ as ->. apply Forall2_nil_2.
  - apply Forall2_cons_inv_l in HQ as (y & ls'' & Hky & HQ & ->). constructor.
    + eapply HR; [by left | done..].
    + apply IH; [done|]. intros k' x' y' Hk'. apply HR. by right.
Qed.

Lemma sublist_concat (ls ls' : list (list string)) :
  Forall2 sublist ls ls' → sublist (concat ls) (concat ls').
Proof.
  induction 1 as [|l l' ls ls' Hl _ IH]; simpl; [done|]. by apply sublist_app.
Qed.

Lemma dict_getitem_app_l (d d' : list (ascii * nat)) (k : ascii) (v : nat) :
  dict_getitem d k = Ok v → dict_getitem (d ++ d') k = Ok v.
Proof.
  induction d as [|[k' v'] d IH]; simpl; [done|]. case_decide; [done | apply IH].
Qed.

Lemma dict_contains_app_l (d d' : list (ascii * nat)) (k : ascii) :
  dict_contains d k = true → dict_contains (d ++ d') k = true.
Proof.
  induction d as [|[k' v'] d IH]; simpl; [done|]. case_decide; [done | apply IH].
Qed.

(** ** [search] in a store that has grown *)

Lemma get_all_suffixes_sublist (h h' : store) (fuel : nat) (a : ref)
    (l l' : list string) :
  extends h h' →
  _Trie._get_all_suffixes fuel a h = Ok l →
  _Trie._get_all_suffixes fuel a h' = Ok l' →
  sublist l l'.
Proof.
  intros Hext. revert a l l'. induction fuel as [|fuel IH]; intros a l l'; simpl; [done|].
  destruct (h !! a) as [o|] eqn:Ha; [|done].
  destruct (Hext a o Ha) as (o' & -> & _ & ex & Hex).
  rewrite Hex. unfold dict_keys. rewrite fmap_app.
  rewrite !for_extend_concat.
  intros (ls & Hls & ->) (ls' & (ls1 & ls2 & Hls1 & _ & ->)%Forall2_app_inv_l & ->).
  simpl. rewrite concat_app. apply sublist_inserts_r, sublist_concat.
  eapply Forall2_pointwise; [exact Hls | exact Hls1 |].
  intros k x y Hk. simpl. case_decide; [by intros [= <-] [= <-]|].
  destruct (dict_getitem (_entry o) k) as [b|] eqn:Hb; [|done].
  rewrite (dict_getitem_app_l _ ex _ _ Hb). cbn [mbind result_bind].
  destruct (_Trie._get_all_suffixes fuel b h) as [lb|] eqn:Hlb; [|done].
  destruct (_Trie._get_all_suffixes fuel b h') as [lb'|] eqn:Hlb'; [|done].
  cbn [mbind result_bind]. intros [= <-] [= <-].
  change (sublist (String k <$> lb) (String k <$> lb')).
  apply fmap_sublist. by eapply IH.
Qed.

Lemma search_sublist (h h' : store) (word prefix : string) (a : ref) (fuel : nat)
    (l l' : list string) :
  extends h h' →
  _Trie.search word prefix a h fuel = Ok l →
  _Trie.search word prefix a h' fuel = Ok l' →
  sublist l l'.
Proof.
  intros Hext. revert a.
  induction word as [|x right IH]; intros a; [done|].
  destruct right as [|c rest]; [done|]. cbn [_Trie.search].
  destruct (h !! a) as [o|] eqn:Ha; [|done].
  destruct (Hext a o Ha) as (o' & -> & _ & ex & Hex). rewrite Hex.
  case_decide as Hc.
  - destruct (dict_contains (_entry o) c) eqn:Hk; cbn [negb].
    + rewrite (dict_contains_app_l _ ex _ Hk). cbn [negb].
      destruct (dict_getitem_present _ _ Hk) as [b Hb].
      rewrite Hb, (dict_getitem_app_l _ ex _ _ Hb). apply IH.
    + intros [= <-] _. apply sublist_nil_l.
  - destruct (_Trie._get_all_suffixes fuel a h) as [la|] eqn:Hla; [|done].
    destruct (_Trie._get_all_suffixes fuel a h') as [la'|] eqn:Hla'; [|done].
    cbn [mbind result_bind]. intros [= <-] [= <-].
    change (sublist ((λ s, prefix +:+ s) <$> la) ((λ s, prefix +:+ s) <$> la')).
    apply fmap_sublist. by eapply get_all_suffixes_sublist.
Qed.

Lemma search_mono (word prefix : string) (a : ref) (h : store) (n m : nat)
    (l : list string) :
  n ≤ m → _Trie.search word prefix a h n = Ok l → _Trie.search word prefix a h m = Ok l.
Proof.
  intros Hnm. revert a. induction word as [|x right IH]; intros a; [done|].
  destruct right as [|c rest]; [done|]. cbn [_Trie.search].
  destruct (h !! a) as [o|]; [|done]. case_decide.
  - destruct (negb _); [done|].
    destruct (dict_getitem (_entry o) c) as [b|]; [|done]. apply IH.
  - destruct (_Trie._get_all_suffixes n a h) as [la|] eqn:Hla; [|done].
    by rewrite (get_all_suffixes_mono n m a h la Hnm Hla).
Qed.

(** X11.  Inserting words never takes a word out of the list of [search]
    nor changes the order of the words that were there: for an accepted
    prefix, the list after a program is, in this order, part of the list
    after any calls that follow. *)
Theorem X11_search_order_stable (cs cs' : list call) (p : string) :
  re_match Words._LETTERS_PATTERN p = true →
  ∃ l l', (Words.search p (after cs)).1 = Ok l ∧
          (Words.search p (after (cs ++ cs'))).1 = Ok l' ∧
          sublist l l'.
Proof.
  intros Hp.
  destruct (Words_search_spec cs p Hp) as (l & Hl & _).
  destruct (Words_search_spec (cs ++ cs') p Hp) as (l' & Hl' & _).
  exists l, l'. rewrite Hl, Hl'. split_and!; [done..|].
  unfold Words.search in Hl, Hl'. rewrite Hp in Hl, Hl'. cbn [negb] in Hl, Hl'.
  apply (f_equal fst) in Hl, Hl'. cbn [fst] in Hl, Hl'.
  unfold after in Hl'. rewrite run_app in Hl'. fold (after cs) in Hl'.
  destruct (run_extends cs' (after cs)) as [Hext Hroot]. rewrite Hroot in Hl'.
  eapply search_sublist; [exact Hext | | exact Hl'].
  eapply search_mono; [|exact Hl]. by apply extends_length.
Qed.

Lemma X11_search_order_stable_witness :
  re_match Words._LETTERS_PATTERN "ma" = true ∧
  ∃ l l', (Words.search "ma" (after DoExamples)).1 = Ok l ∧
          (Words.search "ma" (after (DoExamples ++ DoMoreExamples))).1 = Ok l' ∧
          sublist l l'.
Proof.
  split; [reflexivity|].
  apply (X11_search_order_stable DoExamples DoMoreExamples "ma"). reflexivity.
Defined.

(** ** A longer prefix narrows the list to a block *)

Lemma re_match_app_l (class : ascii → bool) (p q : string) :
  re_match class (p +:+ q) = true → re_match class p = true.
Proof.
  induction p as [|c p IH]; [done|]. rewrite app_String. simpl.
  destruct (class c); [done|].
  intros [-> [-> _]%app_eq_empty]%bool_decide_eq_true.
  by apply bool_decide_eq_true.
Qed.

Lemma search_walk (u : string) (w0 : ascii) (prefix : string) (a : ref) (h : store)
    (fuel : nat) (l : list string) :
  occurs _LAST u = false →
  _Trie.search (String w0 (u +:+ String _LAST "")) prefix a h fuel = Ok l →
  (walk h a u = None ∧ l = []) ∨
  ∃ b lb, walk h a u = Some b ∧ _Trie._get_all_suffixes fuel b h = Ok lb ∧
          l = (λ s, prefix +:+ s) <$> lb.
Proof.
  revert w0 a. induction u as [|c u IH]; intros w0 a Hu.
  - rewrite app_empty_l. cbn [_Trie.search].
    destruct (h !! a) as [o|]; [|done].
    case_decide as Hne; [by destruct Hne|].
    destruct (_Trie._get_all_suffixes fuel a h) as [la|] eqn:Hla;
      cbn [mbind result_bind]; [|done].
    intros [= <-]. right. by exists a, la.
  - apply occurs_cons in Hu as [Hc Hu]. rewrite app_String. cbn [_Trie.search walk].
    unfold _Trie.entry_getitem.
    destruct (h !! a) as [o|]; [|done]. rewrite decide_True by done.
    destruct (dict_contains (_entry o) c) eqn:Hk; cbn [negb].
    + destruct (dict_getitem_present _ _ Hk) as [b ->]. intros Hs.
      apply (IH c b Hu Hs).
    + rewrite (dict_getitem_absent _ _ Hk). intros [= <-]. by left.
Qed.

Lemma get_all_suffixes_block (h : store) (q : string) (fuel : nat) (a b : ref)
    (la : list string) :
  occurs _LAST q = false →
  _Trie._get_all_suffixes fuel a h = Ok la → walk h a q = Some b →
  ∃ lb l1 l2, _Trie._get_all_suffixes fuel b h = Ok lb ∧
              la = l1 ++ ((λ s, q +:+ s) <$> lb) ++ l2.
Proof.
  revert fuel a la. induction q as [|k q IH]; intros fuel a la Hq Hla Hw.
  - simpl in Hw. injection Hw as <-. exists la, [], []. split; [done|].
    rewrite (right_id_L [] (++)). simpl. symmetry. apply list_fmap_id.
  - apply occurs_cons in Hq as [Hk Hq].
    destruct fuel as [|fuel]; [done|]. simpl in Hla, Hw.
    unfold _Trie.entry_getitem in Hw.
    destruct (h !! a) as [o|]; [|done].
    destruct (dict_getitem (_entry o) k) as [c|] eqn:Hc; [|done].
    apply for_extend_concat in Hla as (ls & Hls & ->).
    assert (k ∈ dict_keys (_entry o)) as Hin.
    { apply dict_contains_keys. by eapply dict_getitem_contains. }
    apply list_elem_of_split in Hin as (ks1 & ks2 & Hks). rewrite Hks in Hls.
    apply Forall2_app_inv_l in Hls as (ls1 & ls2' & _ & Hls2 & ->).
    apply Forall2_cons_inv_l in Hls2 as (lk & ls2 & Hfk & _ & ->).
    rewrite decide_False, Hc in Hfk by done. cbn [mbind result_bind] in Hfk.
    destruct (_Trie._get_all_suffixes fuel c h) as [lc|] eqn:Hlc; [|done].
    cbn [mbind result_bind] in Hfk. injection Hfk as <-.
    destruct (IH fuel c lc Hq Hlc Hw) as (lb & l1 & l2 & Hlb & ->).
    exists lb, (concat ls1 ++ (String k <$> l1)), ((String k <$> l2) ++ concat ls2).
    split; [eapply get_all_suffixes_mono; [|done]; lia|].
    simpl. rewrite concat_app. simpl.
    change (map (String k) ?l) with (String k <$> l).
    rewrite !fmap_app, <- list_fmap_compose, <- !(assoc_L (++)). done.
Qed.

(** X12.  A longer prefix narrows the list of [search] to a block of it:
    when [search] accepts [p] followed by [q], the list of [search(p + q)]
    stands, whole and in the same order, somewhere in the list of
    [search(p)]. *)
Theorem X12_search_longer_prefix (cs : list call) (p q : string) :
  re_match Words._LETTERS_PATTERN (p +:+ q) = true →
  ∃ lp lpq l1 l2, (Words.search p (after cs)).1 = Ok lp ∧
                  (Words.search (p +:+ q) (after cs)).1 = Ok lpq ∧
                  lp = l1 ++ lpq ++ l2.
Proof.
  intros Hpq. pose proof (re_match_app_l _ _ _ Hpq) as Hp.
  destruct (Words_search_spec cs p Hp) as (lp & Hlp & _).
  destruct (Words_search_spec cs (p +:+ q) Hpq) as (lpq & Hlpq & _).
  exists lp, lpq. rewrite Hlp, Hlpq.
  enough (∃ l1 l2, lp = l1 ++ lpq ++ l2) as (l1 & l2 & ?) by (by exists l1, l2).
  assert (occurs _LAST p = false ∧ occurs _LAST q = false) as [Hop Hoq].
  { apply re_match_letters_occurs in Hpq. rewrite occurs_app in Hpq.
    by apply orb_false_elim in Hpq. }
  unfold Words.search, Words._pad_word in Hlp, Hlpq.
  rewrite Hp in Hlp. rewrite Hpq in Hlpq. cbn [negb] in Hlp, Hlpq.
  apply (f_equal fst) in Hlp, Hlpq. cbn [fst] in Hlp, Hlpq.
  apply search_walk in Hlp as [[Hw ->]|(a & la & Hwa & Hla & ->)]; [| |done].
  - exists [], [].
    apply search_walk in Hlpq as [[_ ->]|(b & lb & Hwb & _)];
      [done | | by rewrite occurs_app, Hop, Hoq].
    by rewrite walk_app, Hw in Hwb.
  - apply search_walk in Hlpq as [[Hw ->]|(b & lb & Hwb & Hlb & ->)];
      [| | by rewrite occurs_app, Hop, Hoq].
    + exists ((λ s, p +:+ s) <$> la), []. simpl. by rewrite (right_id_L [] (++)).
    + rewrite walk_app, Hwa in Hwb. simpl in Hwb.
      destruct (get_all_suffixes_block _ q _ _ _ _ Hoq Hla Hwb)
        as (lb' & l1 & l2 & Hlb' & ->).
      rewrite Hlb in Hlb'. injection Hlb' as <-.
      exists ((λ s, p +:+ s) <$> l1), ((λ s, p +:+ s) <$> l2).
      rewrite !fmap_app, <- list_fmap_compose. do 2 f_equal.
      apply list_fmap_ext. intros _ s _. simpl. by rewrite app_assoc.
Qed.

Lemma X12_search_longer_prefix_witness :
  re_match Words._LETTERS_PATTERN ("m" +:+ "ag") = true ∧
  ∃ lp lpq l1 l2, (Words.search "m" (after DoExamples)).1 = Ok lp ∧
                  (Words.search ("m" +:+ "ag") (after DoExamples)).1 = Ok lpq ∧
                  lp = l1 ++ lpq ++ l2.
Proof.
  split; [reflexivity|].
  apply (X12_search_longer_prefix DoExamples "m" "ag"). reflexivity.
Defined.

(** ** The markers and [_pad_word] *)

Lemma re_match_excludes (class : ascii → bool) (w : string) (c : ascii) :
  class c = false → c ≠ "010"%char → re_match class w = true → occurs c w = false.
Proof.
  intros Hc Hnl. induction w as [|k w IH]; simpl; [done|].
  destruct (class k) eqn:Hk.
  - intros ?%IH. rewrite bool_decide_eq_false_2; [done | congruence].
  - intros [-> ->]%bool_decide_eq_true. by rewrite bool_decide_eq_false_2.
Qed.

Lemma occurs_get (c : ascii) (w : string) (i : nat) :
  occurs c w = false → String.get i w ≠ Some c.
Proof.
  revert i. induction w as [|k w IH]; intros i; simpl; [done|].
  rewrite orb_false_iff, bool_decide_eq_false. intros [Hk Hw].
  destruct i as [|i]; [congruence | by apply IH].
Qed.

Lemma get_snoc (w : string) (c x : ascii) (i : nat) :
  String.get i (w +:+ String c "") = Some x ↔
  String.get i w = Some x ∨ (i = String.length w ∧ x = c).
Proof.
  revert i. induction w as [|k w IH]; intros i.
  - rewrite app_empty_l. destruct i as [|i]; simpl.
    + split; [intros [= <-]; by right | intros [?|[_ ->]]; done].
    + split; [done | intros [?|[? _]]; done].
  - rewrite app_String. destruct i as [|i]; simpl.
    + split; [by left | intros [?|[? _]]; done].
    + rewrite IH. split; (intros [?|[? ?]]; [by left | right; split; [lia | done]]).
Qed.

(** X1.  The bounded form of a word that a validation accepts holds each
    marker once, where it belongs: it is two characters longer than the
    word, [_FIRST] stands at its first place and nowhere else, [_LAST] at
    its last place and nowhere else; and no other word has the same
    bounded form. *)
Theorem X1_pad_word_markers (word : string) :
  re_match Words._LETTERS_AND_DOT_PATTERN word = true →
  String.length (Words._pad_word word) = String.length word + 2 ∧
  (∀ i, String.get i (Words._pad_word word) = Some _FIRST ↔ i = 0) ∧
  (∀ i, String.get i (Words._pad_word word) = Some _LAST ↔ i = String.length word + 1) ∧
  (∀ word', Words._pad_word word' = Words._pad_word word → word' = word).
Proof.
  intros Hw.
  assert (occurs _FIRST word = false) as Hfirst
    by (by eapply re_match_excludes; [| |exact Hw]).
  assert (occurs _LAST word = false) as Hlast
    by (by eapply re_match_excludes; [| |exact Hw]).
  unfold Words._pad_word. split_and!.
  - simpl. rewrite string_length_app. simpl. lia.
  - intros [|i]; simpl; [done|]. rewrite get_snoc. split; [|lia].
    intros [Hi|[_ ?]]; [|done]. by apply occurs_get in Hi.
  - intros [|i]; simpl; [split; [done | lia]|]. rewrite get_snoc. split.
    + intros [Hi|[-> _]]; [by apply occurs_get in Hi | lia].
    + intros Hi. right. split; [lia | done].
  - intros word' [= Heq]. rewrite <- (app_empty_r (word' +:+ _)) in Heq.
    by apply last_unique in Heq as [-> _].
Qed.

Lemma X1_pad_word_markers_witness :
  re_match Words._LETTERS_AND_DOT_PATTERN "b.." = true ∧
  String.length (Words._pad_word "b..") = String.length "b.." + 2 ∧
  (∀ i, String.get i (Words._pad_word "b..") = Some _FIRST ↔ i = 0) ∧
  (∀ i, String.get i (Words._pad_word "b..") = Some _LAST ↔ i = String.length "b.." + 1) ∧
  (∀ word', Words._pad_word word' = Words._pad_word "b.." → word' = "b..").
Proof. split; [reflexivity | apply (X1_pad_word_markers "b.."); reflexivity]. Defined.

(** ** The new dictionary *)

(** X13.  A new dictionary holds no word, not even the empty one: whatever
    the input, [contains] answers false and [search] the empty list, unless
    the validation refuses the input. *)
Theorem X13_new_dictionary_empty (word : string) :
  (Words.contains word Words.__init__).1 =
    (if re_match Words._LETTERS_AND_DOT_PATTERN word then Ok false
     else Raise (WordsError BadInputLettersAndDot)) ∧
  (Words.search word Words.__init__).1 =
    (if re_match Words._LETTERS_PATTERN word then Ok []
     else Raise (WordsError BadInputLetters)).
Proof.
  split.
  - destruct (re_match Words._LETTERS_AND_DOT_PATTERN word) eqn:Hw.
    + destruct (Words_contains_spec [] word Hw) as (b & Hb & Hiff).
      change (after []) with Words.__init__ in Hb. rewrite Hb. simpl.
      destruct b; [|done]. destruct Hiff as [Hiff _].
      destruct (Hiff eq_refl) as (w & Hin & _). by apply elem_of_nil in Hin.
    + by rewrite Words_contains_invalid.
  - destruct (re_match Words._LETTERS_PATTERN word) eqn:Hw.
    + destruct (Words_search_spec [] word Hw) as (l & Hl & _ & Hiff).
      change (after []) with Words.__init__ in Hl. rewrite Hl. simpl.
      destruct l as [|w l]; [done|].
      destruct (Hiff w) as [[Hin _] _]; [by left|]. by apply elem_of_nil in Hin.
    + by rewrite Words_search_invalid.
Qed.

(** ** The methods of a node, called without the care of [Words] *)

Lemma walk_extends (h h' : store) (u : string) (a b : ref) :
  extends h h' → walk h a u = Some b → walk h' a u = Some b.
Proof.
  intros Hext. revert a. induction u as [|c u IH]; intros a; simpl; [done|].
  unfold _Trie.entry_getitem. destruct (h !! a) as [o|] eqn:Ha; [|done].
  destruct (Hext a o Ha) as (o' & -> & _ & ex & ->).
  destruct (dict_getitem (_entry o) c) as [x|] eqn:Hx; [|done].
  rewrite (dict_getitem_app_l _ ex _ _ Hx). apply IH.
Qed.

Lemma search_unmarked (h : store) (root : ref) (u : string) (w0 : ascii)
    (prefix : string) (a : ref) (fuel : nat) :
  trie_inv (Words.Build h root) → a < length h → occurs _LAST u = false →
  _Trie.search (String w0 u) prefix a h fuel =
    match walk h a u with
    | Some _ => Raise IndexError
    | None => Ok []
    end.
Proof.
  intros Hinv. revert w0 a. induction u as [|c u IH]; intros w0 a Ha Hu; [done|].
  apply occurs_cons in Hu as [Hc Hu].
  destruct (lookup_lt_is_Some_2 _ _ Ha) as [o Ho].
  cbn [_Trie.search walk]. unfold _Trie.entry_getitem. rewrite Ho.
  rewrite decide_True by done.
  destruct (dict_contains (_entry o) c) eqn:Hk; cbn [negb].
  - destruct (dict_getitem_present _ _ Hk) as [b Hb]. rewrite Hb.
    destruct (getitem_child _ _ Hinv _ _ _ _ Ho Hb) as (_ & ob & Hob & _).
    apply (IH c b); [by eapply lookup_lt_Some | done].
  - by rewrite (dict_getitem_absent _ _ Hk).
Qed.

(** X14.  [_Trie.search] relies on the end marker of its word; its
    assertion [len(word) >= 1] does not stand in for it.  Called on a node
    of a dictionary with a word that has no [_LAST], it answers the empty
    list when the word, after its first character, leaves the paths of the
    node, and raises [IndexError] (at [word[1]]) when the whole of it is a
    path; so it does for a word of one character. *)
Theorem X14_search_without_end_marker (cs : list call) (a : ref) (w0 : ascii)
    (u prefix : string) (fuel : nat) :
  a < length (Words.heap (after cs)) → occurs _LAST u = false →
  _Trie.search (String w0 u) prefix a (Words.heap (after cs)) fuel =
    match walk (Words.heap (after cs)) a u with
    | Some _ => Raise IndexError
    | None => Ok []
    end.
Proof.
  intros Ha Hu. destruct (after_good cs) as (Hinv & _ & _).
  destruct (after cs) as [h root]. by eapply search_unmarked.
Qed.

Lemma X14_search_without_end_marker_witness :
  0 < length (Words.heap (after DoExamples)) ∧ occurs _LAST "ma" = false ∧
  _Trie.search (String _FIRST "ma") "ma" 0 (Words.heap (after DoExamples)) 20 =
    match walk (Words.heap (after DoExamples)) 0 "ma" with
    | Some _ => Raise IndexError
    | None => Ok []
    end.
Proof.
  assert (0 < length (Words.heap (after DoExamples))) as Ha by (vm_compute; lia).
  split_and!; [exact Ha | reflexivity |].
  apply (X14_search_without_end_marker DoExamples 0 _FIRST "ma" "ma" 20 Ha).
  reflexivity.
Defined.

(** X15.  [_Trie.add_word] checks nothing but the first character of its
    word.  Called on a node of a dictionary with a word that begins with
    the letter of the node, it returns, whatever characters follow (dots
    and markers as well), keeps the trie well formed, and the rest of the
    word is then a path from the node; with a word that begins otherwise it
    raises [AssertionError] and leaves the store as it was. *)
Theorem X15_node_add_word (cs : list call) (a : ref) (o : object) (w0 : ascii)
    (right : string) :
  Words.heap (after cs) !! a = Some o →
  if decide (w0 = _letter o) then
    ∃ h', _Trie.add_word (String w0 right) a (Words.heap (after cs)) = (Ok (), h') ∧
          trie_inv (Words.Build h' (Words._trie (after cs))) ∧
          is_Some (walk h' a right)
  else
    _Trie.add_word (String w0 right) a (Words.heap (after cs)) =
      (Raise AssertionError, Words.heap (after cs)).
Proof.
  intros Ha. destruct (after_good cs) as (Hinv & _ & _).
  destruct (after cs) as [h root]. cbn [Words.heap Words._trie] in *.
  case_decide as Hw0.
  - destruct (path_exists _ Hinv a) as [u1 Hu1]; [by eapply lookup_lt_Some|].
    cbn [Words.heap Words._trie] in Hu1.
    destruct (add_word_spec right w0 a h root o Hinv Ha (eq_sym Hw0))
      as (h' & Hadd & Hinv' & Hwalk).
    { by apply (walk_forward _ _ Hinv) in Hu1 as [? _]. }
    exists h'. split_and!; [done..|].
    pose proof (add_word_extends right w0 a h) as [Hext _]. rewrite Hadd in Hext.
    cbn [snd] in Hext.
    assert (is_Some (walk h' root (u1 +:+ right))) as Hsome.
    { apply Hwalk. right. exists u1, right, "". by rewrite app_empty_r. }
    by rewrite walk_app, (walk_extends _ _ _ _ _ Hext Hu1) in Hsome.
  - destruct right; simpl; by rewrite Ha, decide_False.
Qed.

Lemma X15_node_add_word_witness :
  Words.heap (after DoExamples) !! 1 = Some (Object "b" [("a"%char, 2)]) ∧
  if decide ("b"%char = _letter (Object "b" [("a"%char, 2)])) then
    ∃ h', _Trie.add_word "b.$" 1 (Words.heap (after DoExamples)) = (Ok (), h') ∧
          trie_inv (Words.Build h' (Words._trie (after DoExamples))) ∧
          is_Some (walk h' 1 ".$")
  else
    _Trie.add_word "b.$" 1 (Words.heap (after DoExamples)) =
      (Raise AssertionError, Words.heap (after DoExamples)).
Proof.
  split; [reflexivity|].
  apply (X15_node_add_word DoExamples 1 (Object "b" [("a"%char, 2)]) "b" ".$").
  reflexivity.
Defined.

(** ** What [search] returns can be given back *)

(** X16.  Every string of a list that [search] returns is a word as
    [add_word] wants it, with no marker left in it: the validation accepts
    it, [contains] finds it, and inserting it again leaves the dictionary
    as it is. *)
Theorem X16_search_results_are_words (cs : list call) (p w : string)
    (l : list string) :
  (Words.search p (after cs)).1 = Ok l → w ∈ l →
  re_match Words._LETTERS_PATTERN w = true ∧
  occurs _FIRST w = false ∧ occurs _LAST w = false ∧
  (Words.contains w (after cs)).1 = Ok true ∧
  Words.add_word w (after cs) = (Ok (), after cs).
Proof.
  intros Hl Hw. destruct (re_match Words._LETTERS_PATTERN p) eqn:Hp.
  2:{ by rewrite Words_search_invalid in Hl. }
  destruct (Words_search_spec cs p Hp) as (l' & Hl' & _ & Hiff).
  rewrite Hl' in Hl. injection Hl as ->. apply Hiff in Hw as [Hin _].
  destruct (after_good cs) as (_ & _ & Hws). rewrite Forall_forall in Hws.
  pose proof (Hws _ Hin) as Hvalid. split_and!; [done | | | |].
  - by eapply re_match_excludes; [| |exact Hvalid].
  - by eapply re_match_excludes; [| |exact Hvalid].
  - destruct (Words_contains_spec cs w (re_match_letters_dot _ Hvalid)) as (b & -> & Hb).
    simpl. f_equal. apply Hb. exists w. split; [done | apply dot_match_refl].
  - by apply Words_add_word_again.
Qed.

Lemma X16_search_results_are_words_witness :
  (Words.search "ma" (after DoExamples)).1 = Ok ["mad"; "magic"] ∧
  "magic" ∈ ["mad"; "magic"] ∧
  re_match Words._LETTERS_PATTERN "magic" = true ∧
  occurs _FIRST "magic" = false ∧ occurs _LAST "magic" = false ∧
  (Words.contains "magic" (after DoExamples)).1 = Ok true ∧
  Words.add_word "magic" (after DoExamples) = (Ok (), after DoExamples).
Proof.
  assert ("magic" ∈ ["mad"; "magic"]) as Hin by (repeat constructor).
  split_and!; [reflexivity | exact Hin |..];
    apply (X16_search_results_are_words DoExamples "ma" "magic" ["mad"; "magic"]
             eq_refl Hin).
Defined.
